(** * The chunk manager frontend of neuroglancer

    A shallow embedding of [src/neuroglancer/chunk_manager/frontend.ts]:
    the [Chunk] state machine, [ChunkSource] and its chunk map, the
    pending-update queue of [ChunkQueueManager] with its deadline-gated
    drain tick, the ['Chunk.update'] RPC handler and
    [ChunkManager.getChunkSource].

    JavaScript objects that the code mutates through more than one
    reference (the update records, linked through their [nextUpdate]
    property and reached from both the head and the tail pointer) are
    modelled with an explicit identity and a property table.  Exceptions
    are results of an error monad that keeps the state reached when the
    exception was thrown. *)

From stdpp Require Import gmap strings list fin_maps pretty.

Set Warnings "-register-all".
Set Default Proof Using "Type".

Open Scope Z_scope.

(** ** Values imported from other modules *)

(** Modelled from the spec: the enum [ChunkState] is imported from
    [neuroglancer/chunk_manager/base], which is not part of the sources.
    frontend.ts names three of its members; a record's ['state'] field is a
    [number], so every other value it can carry (the remaining members of
    the enum, such as the remote and downloading states, or a number that
    is no member at all) is [OTHER_STATE code]. *)
Inductive ChunkState :=
  | GPU_MEMORY
  | SYSTEM_MEMORY
  | EXPIRED
  | OTHER_STATE (code : Z).

#[global] Instance ChunkState_eq_dec : EqDecision ChunkState.
Proof. solve_decision. Defined.

(** Structured values, as they are handed to [stableStringify]. *)
Inductive Json :=
  | JUndefined
  | JNull
  | JBool (b : bool)
  | JNumber (n : Z)
  | JString (s : string)
  | JArray (l : list Json)
  | JObject (m : gmap string Json).

(** Modelled from the spec: [AvailableCapacity] is imported from
    [neuroglancer/chunk_manager/base]; "each tier tracks (used, total)". *)
Record AvailableCapacity := { used : Z; total : Z }.

Record Capacities := {
  gpuMemory : AvailableCapacity;
  systemMemory : AvailableCapacity;
  download : AvailableCapacity
}.

(** What a JavaScript call can throw here. *)
Inductive JsError :=
  | Error (message : string)
      (** [throw new Error(message)] *)
  | InvalidChunkState (newState : ChunkState)
      (** [throw new Error(`INTERNAL ERROR: Invalid chunk state: ${ChunkState[newState]}`)] *)
  | TypeError.
      (** a property read or a method call on [null] or [undefined] *)

Inductive Result (A : Type) :=
  | Ok (a : A)
  | Throw (e : JsError).
Arguments Ok {A} a.
Arguments Throw {A} e.

(** ** Chunk *)

Module Chunk.
(** [source] is the back-reference to the owning [ChunkSource], kept as
    the source's rpc id. *)
Record t := mk { source : nat; state : ChunkState }.

(** [state = ChunkState.SYSTEM_MEMORY; constructor(public source: ChunkSource) {}] *)
Definition new (source : nat) : t := mk source SYSTEM_MEMORY.

Definition copyToGPU (c : t) : t := mk (source c) GPU_MEMORY.

Definition freeGPUMemory (c : t) : t := mk (source c) SYSTEM_MEMORY.
End Chunk.

(** ** Update records

    The object [x] that ['Chunk.update'] receives.  Its keys ['source'],
    ['id'], ['state'], ['new'] and ['chunkDataSize'] are never written by
    frontend.ts. *)
Module Update.
Record t := mk {
  source : nat;
  id : string;
  state : ChunkState;
  new : bool;
  chunkDataSize : Z
}.
End Update.

(** A reference to an update record: the identity of the JavaScript object
    together with the keys that are never written.  The one property the
    code does write, [nextUpdate], lives in the property table
    [nextUpdate] of the world, keyed by the identity; an object on which it
    was never set reads [undefined], which is an absent key. *)
Record UpdateRef := { addr : nat; fields : Update.t }.

(** ** ChunkSource *)

(** [chunks] is [new Map<string, Chunk>()].  A chunk object is referenced
    from its slot of this map only, so the map holds the chunk itself.
    [overridesGetChunk] says whether the class of this source overrides
    [getChunk]; [refCount] is the count kept by [RefCounted]. *)
Record ChunkSource := {
  chunks : gmap string Chunk.t;
  overridesGetChunk : bool;
  refCount : nat
}.

Definition with_chunks (m : gmap string Chunk.t) (s : ChunkSource) : ChunkSource :=
  {| chunks := m; overridesGetChunk := overridesGetChunk s; refCount := refCount s |}.

Definition addRef (s : ChunkSource) : ChunkSource :=
  {| chunks := chunks s; overridesGetChunk := overridesGetChunk s;
     refCount := S (refCount s) |}.

(** ** The world: every object the code of frontend.ts reads or writes *)

Record World := {
  (** fields of the [ChunkQueueManager] *)
  visibleChunksChanged : nat;          (** dispatches of the signal so far *)
  pendingChunkUpdates : option UpdateRef;
  pendingChunkUpdatesTail : option UpdateRef;
  chunkUpdateDeadline : option Z;
  chunkUpdateDelay : Z;
  (** the capacity objects handed to its constructor *)
  capacities : Capacities;
  (** the object table of [rpc], and the next id it hands out *)
  objects : gmap nat ChunkSource;
  nextId : nat;
  (** [memoize] of the [ChunkManager] *)
  memoize : gmap string nat;
  (** the [nextUpdate] property of the update records, and the number of
      update records received so far (the identity of the next one) *)
  nextUpdate : gmap nat UpdateRef;
  received : nat;
  (** pending [setTimeout(processPendingChunkUpdates, delay)] calls *)
  timeouts : list Z
}.

Definition set_visibleChunksChanged (v : nat) (w : World) : World :=
  {| visibleChunksChanged := v;
     pendingChunkUpdates := pendingChunkUpdates w;
     pendingChunkUpdatesTail := pendingChunkUpdatesTail w;
     chunkUpdateDeadline := chunkUpdateDeadline w;
     chunkUpdateDelay := chunkUpdateDelay w;
     capacities := capacities w; objects := objects w; nextId := nextId w;
     memoize := memoize w; nextUpdate := nextUpdate w; received := received w;
     timeouts := timeouts w |}.

Definition set_pendingChunkUpdates (v : option UpdateRef) (w : World) : World :=
  {| visibleChunksChanged := visibleChunksChanged w;
     pendingChunkUpdates := v;
     pendingChunkUpdatesTail := pendingChunkUpdatesTail w;
     chunkUpdateDeadline := chunkUpdateDeadline w;
     chunkUpdateDelay := chunkUpdateDelay w;
     capacities := capacities w; objects := objects w; nextId := nextId w;
     memoize := memoize w; nextUpdate := nextUpdate w; received := received w;
     timeouts := timeouts w |}.

Definition set_pendingChunkUpdatesTail (v : option UpdateRef) (w : World) : World :=
  {| visibleChunksChanged := visibleChunksChanged w;
     pendingChunkUpdates := pendingChunkUpdates w;
     pendingChunkUpdatesTail := v;
     chunkUpdateDeadline := chunkUpdateDeadline w;
     chunkUpdateDelay := chunkUpdateDelay w;
     capacities := capacities w; objects := objects w; nextId := nextId w;
     memoize := memoize w; nextUpdate := nextUpdate w; received := received w;
     timeouts := timeouts w |}.

Definition set_chunkUpdateDeadline (v : option Z) (w : World) : World :=
  {| visibleChunksChanged := visibleChunksChanged w;
     pendingChunkUpdates := pendingChunkUpdates w;
     pendingChunkUpdatesTail := pendingChunkUpdatesTail w;
     chunkUpdateDeadline := v;
     chunkUpdateDelay := chunkUpdateDelay w;
     capacities := capacities w; objects := objects w; nextId := nextId w;
     memoize := memoize w; nextUpdate := nextUpdate w; received := received w;
     timeouts := timeouts w |}.

Definition set_objects (v : gmap nat ChunkSource) (w : World) : World :=
  {| visibleChunksChanged := visibleChunksChanged w;
     pendingChunkUpdates := pendingChunkUpdates w;
     pendingChunkUpdatesTail := pendingChunkUpdatesTail w;
     chunkUpdateDeadline := chunkUpdateDeadline w;
     chunkUpdateDelay := chunkUpdateDelay w;
     capacities := capacities w; objects := v; nextId := nextId w;
     memoize := memoize w; nextUpdate := nextUpdate w; received := received w;
     timeouts := timeouts w |}.

Definition set_nextId (v : nat) (w : World) : World :=
  {| visibleChunksChanged := visibleChunksChanged w;
     pendingChunkUpdates := pendingChunkUpdates w;
     pendingChunkUpdatesTail := pendingChunkUpdatesTail w;
     chunkUpdateDeadline := chunkUpdateDeadline w;
     chunkUpdateDelay := chunkUpdateDelay w;
     capacities := capacities w; objects := objects w; nextId := v;
     memoize := memoize w; nextUpdate := nextUpdate w; received := received w;
     timeouts := timeouts w |}.

Definition set_memoize (v : gmap string nat) (w : World) : World :=
  {| visibleChunksChanged := visibleChunksChanged w;
     pendingChunkUpdates := pendingChunkUpdates w;
     pendingChunkUpdatesTail := pendingChunkUpdatesTail w;
     chunkUpdateDeadline := chunkUpdateDeadline w;
     chunkUpdateDelay := chunkUpdateDelay w;
     capacities := capacities w; objects := objects w; nextId := nextId w;
     memoize := v; nextUpdate := nextUpdate w; received := received w;
     timeouts := timeouts w |}.

Definition set_nextUpdate (v : gmap nat UpdateRef) (w : World) : World :=
  {| visibleChunksChanged := visibleChunksChanged w;
     pendingChunkUpdates := pendingChunkUpdates w;
     pendingChunkUpdatesTail := pendingChunkUpdatesTail w;
     chunkUpdateDeadline := chunkUpdateDeadline w;
     chunkUpdateDelay := chunkUpdateDelay w;
     capacities := capacities w; objects := objects w; nextId := nextId w;
     memoize := memoize w; nextUpdate := v; received := received w;
     timeouts := timeouts w |}.

Definition set_received (v : nat) (w : World) : World :=
  {| visibleChunksChanged := visibleChunksChanged w;
     pendingChunkUpdates := pendingChunkUpdates w;
     pendingChunkUpdatesTail := pendingChunkUpdatesTail w;
     chunkUpdateDeadline := chunkUpdateDeadline w;
     chunkUpdateDelay := chunkUpdateDelay w;
     capacities := capacities w; objects := objects w; nextId := nextId w;
     memoize := memoize w; nextUpdate := nextUpdate w; received := v;
     timeouts := timeouts w |}.

Definition set_timeouts (v : list Z) (w : World) : World :=
  {| visibleChunksChanged := visibleChunksChanged w;
     pendingChunkUpdates := pendingChunkUpdates w;
     pendingChunkUpdatesTail := pendingChunkUpdatesTail w;
     chunkUpdateDeadline := chunkUpdateDeadline w;
     chunkUpdateDelay := chunkUpdateDelay w;
     capacities := capacities w; objects := objects w; nextId := nextId w;
     memoize := memoize w; nextUpdate := nextUpdate w; received := received w;
     timeouts := v |}.

(** ** The monad of JavaScript calls

    A call runs on a world and either returns or throws; in both cases the
    writes made so far stay. *)
Definition M (A : Type) : Type := World → Result A * World.

#[global] Instance M_ret : MRet M := λ A a w, (Ok a, w).

#[global] Instance M_bind : MBind M := λ A B f m w,
  match m w with
  | (Ok a, w') => f a w'
  | (Throw e, w') => (Throw e, w')
  end.

Definition throw {A} (e : JsError) : M A := λ w, (Throw e, w).
Definition gets {A} (f : World → A) : M A := λ w, (Ok (f w), w).
Definition modify (f : World → World) : M () := λ w, (Ok (), f w).

(** Reading a property of, or calling a method on, a value that may be
    [null] or [undefined]. *)
Definition deref {A} (o : option A) : M A :=
  match o with
  | Some a => mret a
  | None => throw TypeError
  end.

(** ** ChunkSource methods

    A source is referred to by its rpc id [src], the key under which the
    object table of [rpc] holds it. *)

Definition with_source (src : nat) (f : ChunkSource → ChunkSource) : M () :=
  modify (λ w, set_objects (alter f src (objects w)) w).

(** [deleteChunk(key) { this.chunks.delete(key); }] *)
Definition ChunkSource_deleteChunk (src : nat) (key : string) : M () :=
  with_source src (λ s, with_chunks (delete key (chunks s)) s).

(** [addChunk(key, chunk) { this.chunks.set(key, chunk); }] *)
Definition ChunkSource_addChunk (src : nat) (key : string) (chunk : Chunk.t) : M () :=
  with_source src (λ s, with_chunks (<[key := chunk]> (chunks s)) s).

(** [source.chunks.get(key)]: the chunk, or [undefined]. *)
Definition ChunkSource_chunks_get (src : nat) (key : string) : M (option Chunk.t) :=
  gets (λ w, objects w !! src ≫= λ s, chunks s !! key).

(** [getChunk(_x) { throw new Error('Not implemented.'); }] *)
Definition ChunkSource_getChunk (x : UpdateRef) : M Chunk.t :=
  throw (Error "Not implemented.").

(** Modelled from the spec: the classes that override [getChunk] are not
    part of the sources ("containers that create chunks frontend-side must
    override it").  Such an override builds a chunk of this source through
    the constructor of [Chunk]. *)
Definition getChunk_override (src : nat) (x : UpdateRef) : M Chunk.t :=
  mret (Chunk.new src).

(** The method call [source.getChunk(update)]. *)
Definition call_getChunk (src : nat) (x : UpdateRef) : M Chunk.t :=
  s ← gets (λ w, objects w !! src) ≫= deref;
  if overridesGetChunk s then getChunk_override src x else ChunkSource_getChunk x.

(** [chunk.copyToGPU(gl)] and [chunk.freeGPUMemory(gl)] on the chunk object
    held in slot [key] of source [src]. *)
Definition call_copyToGPU (src : nat) (key : string) : M () :=
  with_source src (λ s, with_chunks (alter Chunk.copyToGPU key (chunks s)) s).

Definition call_freeGPUMemory (src : nat) (key : string) : M () :=
  with_source src (λ s, with_chunks (alter Chunk.freeGPUMemory key (chunks s)) s).

(** [rpc.get(id)]: a reference to the object registered under [id], or
    [undefined]. *)
Definition rpc_get (id : nat) : M (option nat) :=
  gets (λ w, (λ _, id) <$> objects w !! id).

(** ** ChunkQueueManager *)

(** [setTimeout(this.processPendingChunkUpdates.bind(this), delay)] *)
Definition setTimeout (delay : Z) : M () :=
  modify (λ w, set_timeouts (timeouts w ++ [delay]) w).

(** [this.visibleChunksChanged.dispatch()] *)
Definition dispatch : M () :=
  modify (λ w, set_visibleChunksChanged (S (visibleChunksChanged w)) w).

(** [now] is what [Date.now()] returns in this call. *)
Definition scheduleChunkUpdate (now : Z) : M () :=
  deadline ← gets chunkUpdateDeadline;
  delay ← match deadline with
          | None => mret 0
          | Some d => if decide (now < d) then mret 0 else gets chunkUpdateDelay
          end;
  setTimeout delay.

(** [deadline !== null && Date.now() > deadline] *)
Definition past_deadline (deadline : option Z) (now : Z) : bool :=
  match deadline with
  | None => false
  | Some d => bool_decide (now > d)
  end.

(** The JavaScript function returns [undefined] on both of its paths; the
    model's result says which path was taken, and on which record. *)
Inductive Tick :=
  | Deferred
  | Processed (update : UpdateRef).

(** [now] is the reading of [Date.now()] in the function itself, [now']
    the one in its call of [scheduleChunkUpdate]. *)
Definition processPendingChunkUpdates (now now' : Z) : M Tick :=
  deadline ← gets chunkUpdateDeadline;
  if past_deadline deadline now then
    delay ← gets chunkUpdateDelay;
    setTimeout delay;;
    mret Deferred
  else
    update ← gets pendingChunkUpdates ≫= deref;
    source ← rpc_get (Update.source (fields update));
    let newState := Update.state (fields update) in
    (if decide (newState = EXPIRED) then
       src ← deref source;
       ChunkSource_deleteChunk src (Update.id (fields update))
     else
       let key := Update.id (fields update) in
       src ← deref source;
       chunk ← (if Update.new (fields update) then
                  chunk ← call_getChunk src update;
                  ChunkSource_addChunk src key chunk;;
                  mret (Some chunk)
                else
                  ChunkSource_chunks_get src key);
       c ← deref chunk;
       let oldState := Chunk.state c in
       if decide (newState ≠ oldState) then
         match newState with
         | GPU_MEMORY =>
             call_copyToGPU src key;;
             dispatch
         | SYSTEM_MEMORY =>
             call_freeGPUMemory src key
         | _ => throw (InvalidChunkState newState)
         end
       else mret ());;
    next ← gets (λ w, nextUpdate w !! addr update);
    modify (set_pendingChunkUpdates next);;
    match next with
    | Some _ => scheduleChunkUpdate now'
    | None => modify (set_pendingChunkUpdatesTail None)
    end;;
    mret (Processed update).

(** ** The handler of ['Chunk.update']

    [x] is the content of the record the handler receives; the record is a
    new object, whose identity is the number of records received before
    it.  [now] is the reading of [Date.now()] in [scheduleChunkUpdate].
    The JavaScript function returns [undefined]; the model's result is the
    reference to the record it queued. *)
Definition Chunk_update (now : Z) (x : Update.t) : M UpdateRef :=
  n ← gets received;
  modify (set_received (S n));;
  let x := {| addr := n; fields := x |} in
  source ← rpc_get (Update.source (fields x));
  _ ← deref source;
  pendingTail ← gets pendingChunkUpdatesTail;
  match pendingTail with
  | None =>
      modify (set_pendingChunkUpdates (Some x));;
      modify (set_pendingChunkUpdatesTail (Some x));;
      scheduleChunkUpdate now
  | Some tl =>
      modify (λ w, set_nextUpdate (<[addr tl := x]> (nextUpdate w)) w);;
      modify (set_pendingChunkUpdatesTail (Some x))
  end;;
  mret x.

(** ** ChunkManager *)

(** A JavaScript object passed as [options]: its identity and its
    properties.  Two objects built separately have different identities,
    whatever their properties. *)
Record JsObject := { identity : nat; properties : gmap string Json }.

(** [options.parameters]: the property, or [undefined]. *)
Definition get_property (o : JsObject) (k : string) : Json :=
  default JUndefined (properties o !! k).

(** A class derived from [ChunkSource], as [getChunkSource] uses it: the
    identity of the constructor function, its static [encodeOptions], and
    whether it overrides [getChunk]. *)
Record ChunkSourceConstructor := {
  objectId : nat;
  encodeOptions : JsObject → gmap string Json;
  constructsChunks : bool
}.

(** [static encodeOptions(_options: {}) { return {}; }] *)
Definition ChunkSource_encodeOptions (_options : JsObject) : gmap string Json := ∅.

(** The class [ChunkSource] itself. *)
Definition ChunkSource_class : ChunkSourceConstructor :=
  {| objectId := 0;
     encodeOptions := ChunkSource_encodeOptions;
     constructsChunks := false |}.

(** The class [C] that [WithParameters(Base, parametersConstructor)]
    returns; [oid] is the identity of the new class.
    [[
      static encodeOptions(options: Options) {
        const encoding = super.encodeOptions(options);
        encoding['parameters'] = options.parameters;
        return encoding;
      }
    ]] *)
Definition WithParameters (oid : nat) (Base : ChunkSourceConstructor) :
    ChunkSourceConstructor :=
  {| objectId := oid;
     encodeOptions := λ options,
       let encoding := encodeOptions Base options in
       <["parameters" := get_property options "parameters"]> encoding;
     constructsChunks := constructsChunks Base |}.

(** [new constructorFunction(this, options)]: [chunks = new Map()], and the
    reference count a [RefCounted] starts with. *)
Definition construct (constructorFunction : ChunkSourceConstructor)
    (options : JsObject) : ChunkSource :=
  {| chunks := ∅;
     overridesGetChunk := constructsChunks constructorFunction;
     refCount := 1 |}.

(** Modelled from the spec: [SharedObject.initializeCounterpart] is imported
    from [neuroglancer/worker_rpc]; it "registers [the container] with the
    registry": the object gets the next rpc id and is entered in the object
    table under it.  The result is that id. *)
Definition initializeCounterpart (s : ChunkSource) : M nat :=
  id ← gets nextId;
  modify (set_nextId (S id));;
  modify (λ w, set_objects (<[id := s]> (objects w)) w);;
  mret id.

(** Modelled from the spec: [StringMemoize] is imported from
    [neuroglancer/util/memoize]; "if an entry exists for that key, return it
    (increments logical sharing, no reconstruction); otherwise construct a
    new container [...] and cache it under that key". *)
Definition StringMemoize_get (key : string) (getter : M nat) : M nat :=
  cached ← gets (λ w, memoize w !! key);
  match cached with
  | Some obj =>
      with_source obj addRef;;
      mret obj
  | None =>
      obj ← getter;
      modify (λ w, set_memoize (<[key := obj]> (memoize w)) w);;
      mret obj
  end.

Section ChunkManager.
(** [stableStringify] of [neuroglancer/util/json] and [getObjectId] of
    [neuroglancer/util/object_id] are imported; they are parameters here.
    [getObjectId] is applied to the identity of the constructor. *)
Variable stableStringify : gmap string Json → string.
Variable getObjectId : nat → Json.

Definition keyObject (constructorFunction : ChunkSourceConstructor)
    (options : JsObject) : gmap string Json :=
  let keyObject := encodeOptions constructorFunction options in
  <["constructorId" := getObjectId (objectId constructorFunction)]> keyObject.

(** The result is the rpc id of the source, which identifies the
    instance. *)
Definition getChunkSource (constructorFunction : ChunkSourceConstructor)
    (options : JsObject) : M nat :=
  let key := stableStringify (keyObject constructorFunction options) in
  StringMemoize_get key
    (let newSource := construct constructorFunction options in
     initializeCounterpart newSource).

(** ** The frontend as a whole

    What the host can do to the frontend: deliver a ['Chunk.update']
    message, fire one of the pending timeouts, set the deadline (the
    render loop does, at each frame), or ask for a chunk source. *)
Inductive Call :=
  | Recv (now : Z) (x : Update.t)
  | Fire (i : nat) (now now' : Z)
  | SetDeadline (deadline : option Z)
  | GetChunkSource (constructorFunction : ChunkSourceConstructor) (options : JsObject).

Inductive Event :=
  | Received (r : Result UpdateRef)
  | Ticked (r : Result Tick)
  | Acquired (r : Result nat)
  | Idle.

Definition perform (c : Call) (w : World) : Event * World :=
  match c with
  | Recv now x =>
      let '(r, w') := Chunk_update now x w in (Received r, w')
  | Fire i now now' =>
      match timeouts w !! i with
      | Some _ =>
          let '(r, w') :=
            processPendingChunkUpdates now now' (set_timeouts (delete i (timeouts w)) w) in
          (Ticked r, w')
      | None => (Idle, w)
      end
  | SetDeadline d => (Idle, set_chunkUpdateDeadline d w)
  | GetChunkSource ctor options =>
      let '(r, w') := getChunkSource ctor options w in (Acquired r, w')
  end.

Fixpoint run (cs : list Call) (w : World) : list Event * World :=
  match cs with
  | [] => ([], w)
  | c :: cs =>
      let '(e, w') := perform c w in
      let '(es, w'') := run cs w' in
      (e :: es, w'')
  end.
End ChunkManager.

(** [new ChunkQueueManager(rpc, gl, capacities)] on a new [rpc], followed by
    [new ChunkManager(chunkQueueManager)]: the two take the rpc ids 0 and
    1. *)
Definition initial_world (capacities : Capacities) : World :=
  {| visibleChunksChanged := 0;
     pendingChunkUpdates := None;
     pendingChunkUpdatesTail := None;
     chunkUpdateDeadline := None;
     chunkUpdateDelay := 30;
     capacities := capacities;
     objects := ∅;
     nextId := 2;
     memoize := ∅;
     nextUpdate := ∅;
     received := 0;
     timeouts := [] |}.

(** The records of the events of a run: those the handler queued, and those
    a tick processed. *)
Definition enqueued (es : list Event) : list UpdateRef :=
  omap (λ e, match e with Received (Ok x) => Some x | _ => None end) es.

Definition processed (es : list Event) : list UpdateRef :=
  omap (λ e, match e with Ticked (Ok (Processed u)) => Some u | _ => None end) es.

(** The pending queue: [l] is the list of records reached from [head]
    through [nextUpdate]. *)
Fixpoint linked (next : gmap nat UpdateRef) (head : option UpdateRef)
    (l : list UpdateRef) : Prop :=
  match l with
  | [] => head = None
  | u :: l' => head = Some u ∧ linked next (next !! addr u) l'
  end.

Definition pending (w : World) (l : list UpdateRef) : Prop :=
  linked (nextUpdate w) (pendingChunkUpdates w) l.

(** A serializer and an object-id function to run the code with. *)
Fixpoint sample_stringify_value (j : Json) : string :=
  match j with
  | JUndefined => "undefined"
  | JNull => "null"
  | JBool b => if b then "true" else "false"
  | JNumber n => pretty n
  | JString s => String.append "'" (String.append s "'")
  | JArray l =>
      String.append "[" (foldr (λ x acc, String.append (sample_stringify_value x)
                                          (String.append "," acc)) "]" l)
  | JObject m =>
      String.append "{"
        (map_fold (λ k v acc, String.append k (String.append ":" (String.append v
                                (String.append "," acc)))) "}"
           (sample_stringify_value <$> m))
  end.

Definition sample_stringify (o : gmap string Json) : string :=
  sample_stringify_value (JObject o).

Definition sample_getObjectId (oid : nat) : Json :=
  JString (String.append "o" (pretty oid)).

(** ** The two halves of a tick

    Lines 97 to 125 of frontend.ts apply the record, lines 126 to 131 take
    it off the queue.  [applyUpdate] and [advance] name the two halves;
    [tick_eq] shows the tick is the sequence of them. *)

Definition applyUpdate (update : UpdateRef) (source : option nat) : M () :=
  let newState := Update.state (fields update) in
  if decide (newState = EXPIRED) then
    src ← deref source;
    ChunkSource_deleteChunk src (Update.id (fields update))
  else
    let key := Update.id (fields update) in
    src ← deref source;
    chunk ← (if Update.new (fields update) then
               chunk ← call_getChunk src update;
               ChunkSource_addChunk src key chunk;;
               mret (Some chunk)
             else
               ChunkSource_chunks_get src key);
    c ← deref chunk;
    let oldState := Chunk.state c in
    if decide (newState ≠ oldState) then
      match newState with
      | GPU_MEMORY => call_copyToGPU src key;; dispatch
      | SYSTEM_MEMORY => call_freeGPUMemory src key
      | _ => throw (InvalidChunkState newState)
      end
    else mret ().

Definition advance (update : UpdateRef) (now' : Z) : M Tick :=
  next ← gets (λ w, nextUpdate w !! addr update);
  modify (set_pendingChunkUpdates next);;
  match next with
  | Some _ => scheduleChunkUpdate now'
  | None => modify (set_pendingChunkUpdatesTail None)
  end;;
  mret (Processed update).

(** ** Invariants *)

(** Every chunk held by a source is in system memory or in GPU memory. *)
Definition chunk_states_ok (w : World) : Prop :=
  map_Forall (λ _ s,
    map_Forall (λ _ c, Chunk.state c = SYSTEM_MEMORY ∨ Chunk.state c = GPU_MEMORY)
      (chunks s)) (objects w).

(** The pending queue is the list [l]: the records are linked from the head
    in this order, the tail pointer is the last of them, every record is one
    that was received, no record occurs twice, and a timeout is pending only
    while the queue is not empty, and one at most. *)
Definition queue_ok (w : World) (l : list UpdateRef) : Prop :=
  pending w l ∧
  pendingChunkUpdatesTail w = last l ∧
  NoDup (addr <$> l) ∧
  (∀ u, u ∈ l → (addr u < received w)%nat) ∧
  (∀ a, is_Some (nextUpdate w !! a) → (a < received w)%nat) ∧
  (timeouts w ≠ [] → l ≠ []) ∧
  (length (timeouts w) ≤ 1)%nat.

(** The registry: rpc ids in use are below the next one, every memoized id
    is that of a registered source, and no source is memoized under two
    keys. *)
Definition registry_ok (w : World) : Prop :=
  (∀ id, is_Some (objects w !! id) → (id < nextId w)%nat) ∧
  (∀ k id, memoize w !! k = Some id → is_Some (objects w !! id)) ∧
  (∀ k1 k2 id, memoize w !! k1 = Some id → memoize w !! k2 = Some id → k1 = k2).

(** The chunk an update record refers to, as the tick resolves it: the
    chunk [getChunk] builds for a record flagged ['new'], the chunk found
    under the record's id otherwise. *)
Definition resolved_chunk (w : World) (u : UpdateRef) : option Chunk.t :=
  s ← objects w !! Update.source (fields u);
  if Update.new (fields u) then
    if overridesGetChunk s then Some (Chunk.new (Update.source (fields u))) else None
  else chunks s !! Update.id (fields u).

(** ** Worlds to run the code on

    A class that overrides [getChunk], options, and the world reached from
    the initial one by acquiring a source of that class (rpc id 2) and a
    source of class [ChunkSource] (rpc id 3) and then receiving the records
    [xs]. *)
Definition example_capacities : Capacities :=
  {| gpuMemory := {| used := 0; total := 1000 |};
     systemMemory := {| used := 0; total := 4000 |};
     download := {| used := 0; total := 100 |} |}.

Definition example_class : ChunkSourceConstructor :=
  {| objectId := 7;
     encodeOptions := ChunkSource_encodeOptions;
     constructsChunks := true |}.

Definition example_options (i : nat) (a : Z) : JsObject :=
  {| identity := i;
     properties := {[ "parameters" := JObject {[ "a" := JNumber a ]} ]} |}.

Definition example_run (cs : list (Call)) : list Event * World :=
  run sample_stringify sample_getObjectId
    (GetChunkSource example_class (example_options 0 1) ::
     GetChunkSource ChunkSource_class (example_options 1 1) :: cs)
    (initial_world example_capacities).

Definition example_world (xs : list Update.t) : World :=
  snd (example_run (Recv 0 <$> xs)).

(** What a tick that processes the record [u] writes to the chunks of the
    record's source [s]: the id is deleted, or the slot of the id holds the
    chunk the record resolved to, as it was or after one of the two
    transitions. *)
Inductive slot_written (u : UpdateRef) (s : ChunkSource) : gmap string Chunk.t → Prop :=
  | written_expired :
      Update.state (fields u) = EXPIRED →
      slot_written u s (delete (Update.id (fields u)) (chunks s))
  | written_created c' :
      Update.state (fields u) ≠ EXPIRED →
      Update.new (fields u) = true →
      overridesGetChunk s = true →
      c' = Chunk.new (Update.source (fields u)) ∨
      c' = Chunk.copyToGPU (Chunk.new (Update.source (fields u))) →
      slot_written u s (<[Update.id (fields u) := c']> (chunks s))
  | written_found c c' :
      Update.state (fields u) ≠ EXPIRED →
      Update.new (fields u) = false →
      chunks s !! Update.id (fields u) = Some c →
      c' = c ∨ c' = Chunk.copyToGPU c ∨ c' = Chunk.freeGPUMemory c →
      slot_written u s (<[Update.id (fields u) := c']> (chunks s)).

(** The delay [scheduleChunkUpdate] chooses. *)
Definition schedule_delay (w : World) (now : Z) : Z :=
  match chunkUpdateDeadline w with
  | None => 0
  | Some d => if decide (now < d) then 0 else chunkUpdateDelay w
  end.

(** The world in which source [src] holds the chunks [m]. *)
Definition put_chunks (src : nat) (s : ChunkSource) (m : gmap string Chunk.t)
    (w : World) : World :=
  set_objects (<[src := with_chunks m s]> (objects w)) w.

Definition dispatched (w : World) : World :=
  set_visibleChunksChanged (S (visibleChunksChanged w)) w.

(** The transition of lines 110 to 124, on the chunk [c] held in slot [key]
    of the chunks [m] of the source. *)
Definition transition_result (u : UpdateRef) (s : ChunkSource)
    (m : gmap string Chunk.t) (c : Chunk.t) (w : World) : Result () * World :=
  let src := Update.source (fields u) in
  let key := Update.id (fields u) in
  if decide (Update.state (fields u) = Chunk.state c) then
    (Ok (), put_chunks src s m w)
  else
    match Update.state (fields u) with
    | GPU_MEMORY => (Ok (), dispatched (put_chunks src s (<[key := Chunk.copyToGPU c]> m) w))
    | SYSTEM_MEMORY => (Ok (), put_chunks src s (<[key := Chunk.freeGPUMemory c]> m) w)
    | st => (Throw (InvalidChunkState st), put_chunks src s m w)
    end.

(** [applyUpdate] on the record [u], case by case. *)
Definition applied (u : UpdateRef) (w : World) : Result () * World :=
  let src := Update.source (fields u) in
  let key := Update.id (fields u) in
  match objects w !! src with
  | None => (Throw TypeError, w)
  | Some s =>
      if decide (Update.state (fields u) = EXPIRED) then
        (Ok (), put_chunks src s (delete key (chunks s)) w)
      else if Update.new (fields u) then
        if overridesGetChunk s then
          transition_result u s (<[key := Chunk.new src]> (chunks s)) (Chunk.new src) w
        else (Throw (Error "Not implemented."), w)
      else
        match chunks s !! key with
        | None => (Throw TypeError, w)
        | Some c => transition_result u s (chunks s) c w
        end
  end.

(** Whether processing the record [u] moves its chunk into GPU memory: the
    target state is GPU_MEMORY and differs from the state of the chunk the
    record resolves to. *)
Definition promotes (w : World) (u : UpdateRef) : bool :=
  bool_decide (Update.state (fields u) = GPU_MEMORY) &&
  match resolved_chunk w u with
  | Some c => bool_decide (Chunk.state c ≠ GPU_MEMORY)
  | None => false
  end.

(** ** Notions for the properties of whole runs *)

(** Whether an event is a tick that threw. *)
Definition tick_threw (e : Event) : bool :=
  match e with
  | Ticked (Throw _) => true
  | _ => false
  end.

(** The timeout of index 0 fires at each of the given readings of
    [Date.now()]. *)
Definition fire_all (times : list (Z * Z)) : list Call :=
  (λ t, Fire 0 t.1 t.2) <$> times.

(** ** The options a source hands to its counterpart

    [ChunkSource.initializeCounterpart] (lines 194 to 197) and the
    [initializeCounterpart] of the class that [WithParameters] returns
    (lines 235 to 238) each write one key of [options] and call [super].
    The functions below give the [options] object as each passes it on. *)

(** [options['chunkManager'] = this.chunkManager.rpcId] *)
Definition ChunkSource_initializeCounterpart_options (chunkManagerRpcId : nat)
    (options : gmap string Json) : gmap string Json :=
  <["chunkManager" := JNumber (Z.of_nat chunkManagerRpcId)]> options.

(** [options['parameters'] = this.parameters] *)
Definition WithParameters_initializeCounterpart_options (parameters : Json)
    (options : gmap string Json) : gmap string Json :=
  <["parameters" := parameters]> options.

(** The class obtained from [ChunkSource] by applying [WithParameters] once
    for each identity of [oids], the outermost first. *)
Fixpoint layered_class (oids : list nat) : ChunkSourceConstructor :=
  match oids with
  | [] => ChunkSource_class
  | oid :: oids => WithParameters oid (layered_class oids)
  end.

(** The [options] that reach [SharedObject.initializeCounterpart] when a
    source of class [layered_class oids] built from [ctorOptions] is
    initialized with [options]: each layer of [WithParameters] writes
    [this.parameters], which its constructor set to
    [ctorOptions.parameters], and [ChunkSource] writes the rpc id of the
    chunk manager. *)
Fixpoint counterpart_options (oids : list nat) (ctorOptions : JsObject)
    (chunkManagerRpcId : nat) (options : gmap string Json) : gmap string Json :=
  match oids with
  | [] => ChunkSource_initializeCounterpart_options chunkManagerRpcId options
  | _ :: oids =>
      counterpart_options oids ctorOptions chunkManagerRpcId
        (WithParameters_initializeCounterpart_options
           (get_property ctorOptions "parameters") options)
  end.

(** * Properties *)

Lemma tick_eq now now' :
  processPendingChunkUpdates now now' =
    (deadline ← gets chunkUpdateDeadline;
     if past_deadline deadline now then
       delay ← gets chunkUpdateDelay;
       setTimeout delay;;
       mret Deferred
     else
       update ← gets pendingChunkUpdates ≫= deref;
       source ← rpc_get (Update.source (fields update));
       applyUpdate update source;;
       advance update now').
Proof. reflexivity. Qed.

(** Unfolding of the monad and of the one-line methods. *)
Ltac unfold_M :=
  unfold gets, modify, throw, deref in *;
  unfold mbind, M_bind, mret, M_ret in *.

Ltac unfold_calls :=
  unfold call_copyToGPU, call_freeGPUMemory, call_getChunk, getChunk_override,
    ChunkSource_getChunk, ChunkSource_addChunk, ChunkSource_deleteChunk,
    ChunkSource_chunks_get, with_source, rpc_get, dispatch, setTimeout,
    scheduleChunkUpdate in *.

(** The world a tick that is not deferred works on, once the record at the
    head and its source are known. *)
Lemma tick_running_raw w now now' u :
  past_deadline (chunkUpdateDeadline w) now = false →
  pendingChunkUpdates w = Some u →
  processPendingChunkUpdates now now' w =
    match applyUpdate u ((λ _, Update.source (fields u)) <$>
                           objects w !! Update.source (fields u)) w with
    | (Ok _, w1) => advance u now' w1
    | (Throw e, w1) => (Throw e, w1)
    end.
Proof.
  intros Hd Hu. rewrite tick_eq. unfold_M. unfold rpc_get. unfold_M.
  rewrite Hd, Hu. by destruct (applyUpdate _ _ w) as [[]].
Qed.

Lemma tick_deferred w now now' :
  past_deadline (chunkUpdateDeadline w) now = true →
  processPendingChunkUpdates now now' w =
    (Ok Deferred, set_timeouts (timeouts w ++ [chunkUpdateDelay w]) w).
Proof.
  intros Hd. rewrite tick_eq. unfold_M. unfold setTimeout. unfold_M.
  by rewrite Hd.
Qed.

Lemma tick_empty w now now' :
  past_deadline (chunkUpdateDeadline w) now = false →
  pendingChunkUpdates w = None →
  processPendingChunkUpdates now now' w = (Throw TypeError, w).
Proof.
  intros Hd Hu. rewrite tick_eq. unfold_M. by rewrite Hd, Hu.
Qed.

Lemma past_deadline_true deadline now :
  past_deadline deadline now = true ↔ ∃ d, deadline = Some d ∧ now > d.
Proof.
  destruct deadline as [d|]; simpl.
  - rewrite bool_decide_eq_true. split; [by eauto|]. by intros (? & [= <-] & ?).
  - split; [done|]. by intros (? & ? & ?).
Qed.

(** ** Deferral *)

(** C1. A tick that finds the deadline set and the current time past it
    processes no record: it returns on the deferred path, and the world
    it leaves differs from the one it found only by one more pending
    timeout, whose delay is [chunkUpdateDelay].  The queue (head, tail and
    links), every source and chunk, and the count of dispatched
    notifications are unchanged. *)
Theorem deadline_passed_defers (w : World) (now now' d : Z) :
  chunkUpdateDeadline w = Some d →
  now > d →
  let '(r, w') := processPendingChunkUpdates now now' w in
  r = Ok Deferred ∧
  w' = set_timeouts (timeouts w ++ [chunkUpdateDelay w]) w ∧
  pendingChunkUpdates w' = pendingChunkUpdates w ∧
  pendingChunkUpdatesTail w' = pendingChunkUpdatesTail w ∧
  nextUpdate w' = nextUpdate w ∧
  objects w' = objects w ∧
  visibleChunksChanged w' = visibleChunksChanged w ∧
  timeouts w' = timeouts w ++ [chunkUpdateDelay w].
Proof.
  intros Hd Hnow.
  rewrite tick_deferred by (apply past_deadline_true; eauto).
  by repeat split.
Qed.

Lemma deadline_passed_defers_witness :
  let w := set_chunkUpdateDeadline (Some 100)
             (example_world [Update.mk 2 "c1" GPU_MEMORY true 8]) in
  processPendingChunkUpdates 101 101 w =
    (Ok Deferred, set_timeouts [0; 30] w).
Proof.
  intros w.
  pose proof (deadline_passed_defers w 101 101 100 eq_refl eq_refl) as H.
  destruct (processPendingChunkUpdates 101 101 w) as [r w'].
  destruct H as (-> & -> & _). reflexivity.
Defined.

(** ** What the two halves do *)

Lemma scheduleChunkUpdate_spec w now :
  scheduleChunkUpdate now w =
    (Ok (), set_timeouts (timeouts w ++ [schedule_delay w now]) w).
Proof.
  unfold scheduleChunkUpdate, schedule_delay, setTimeout. unfold_M.
  destruct (chunkUpdateDeadline w) as [d|]; [|done].
  by destruct (decide (now < d)).
Qed.

Lemma advance_spec u now' w :
  advance u now' w =
    (Ok (Processed u),
     match nextUpdate w !! addr u with
     | Some n =>
         set_timeouts (timeouts w ++ [schedule_delay w now'])
           (set_pendingChunkUpdates (Some n) w)
     | None =>
         set_pendingChunkUpdatesTail None (set_pendingChunkUpdates None w)
     end).
Proof.
  unfold advance. unfold_M.
  destruct (nextUpdate w !! addr u) as [n|]; [|done].
  by rewrite scheduleChunkUpdate_spec.
Qed.

Lemma alter_lookup_insert {A} (f : A → A) (m : gmap nat A) i x :
  m !! i = Some x → alter f i m = <[i := f x]> m.
Proof.
  intros Hi. apply map_eq. intros j. destruct (decide (i = j)) as [<-|Hne].
  - by rewrite lookup_alter_eq, lookup_insert_eq, Hi.
  - by rewrite lookup_alter_ne, lookup_insert_ne.
Qed.

Lemma alter_chunk_insert (f : Chunk.t → Chunk.t) (m : gmap string Chunk.t) k c :
  alter f k (<[k := c]> m) = <[k := f c]> m.
Proof.
  apply map_eq. intros j. destruct (decide (k = j)) as [<-|Hne].
  - by rewrite lookup_alter_eq, !lookup_insert_eq.
  - by rewrite lookup_alter_ne, !lookup_insert_ne.
Qed.

Lemma alter_chunk_lookup (f : Chunk.t → Chunk.t) (m : gmap string Chunk.t) k c :
  m !! k = Some c → alter f k m = <[k := f c]> m.
Proof.
  intros Hk. rewrite <-(insert_id m k c) at 1 by done. apply alter_chunk_insert.
Qed.

Lemma put_chunks_same src s w :
  objects w !! src = Some s → put_chunks src s (chunks s) w = w.
Proof.
  intros Hs. unfold put_chunks.
  replace (with_chunks (chunks s) s) with s by by destruct s.
  rewrite insert_id by done. by destruct w.
Qed.

Lemma applyUpdate_spec u w :
  applyUpdate u ((λ _, Update.source (fields u)) <$>
                   objects w !! Update.source (fields u)) w = applied u w.
Proof.
  unfold applied, applyUpdate, transition_result, put_chunks, dispatched.
  unfold_calls. unfold_M.
  destruct (objects w !! Update.source (fields u)) as [s|] eqn:Hs; simpl.
  2: { destruct (decide (Update.state (fields u) = EXPIRED)); done. }
  destruct (decide (Update.state (fields u) = EXPIRED)) as [Hex|Hex]; simpl.
  { by rewrite (alter_lookup_insert _ _ _ s). }
  destruct (Update.new (fields u)) eqn:Hnew; simpl; rewrite ?Hs; simpl.
  - destruct (overridesGetChunk s) eqn:Hov; simpl; [|done].
    rewrite (alter_lookup_insert _ _ _ s) by done.
    destruct (decide (Update.state (fields u) = SYSTEM_MEMORY)) as [Heq|Hne];
      destruct (decide (Update.state (fields u) ≠ SYSTEM_MEMORY)); try done.
    destruct (Update.state (fields u)); try done; simpl.
    + erewrite alter_lookup_insert by apply lookup_insert_eq.
      rewrite insert_insert_eq. simpl.
      by rewrite alter_chunk_insert, insert_insert_eq.
  - destruct (chunks s !! Update.id (fields u)) as [c|] eqn:Hc; simpl; [|done].
    fold (put_chunks (Update.source (fields u)) s (chunks s) w).
    rewrite (put_chunks_same _ _ _ Hs).
    destruct (decide (Update.state (fields u) = Chunk.state c)) as [Heq|Hne];
      destruct (decide (Update.state (fields u) ≠ Chunk.state c)); try done.
    destruct (Update.state (fields u)); try done; simpl.
    + rewrite (alter_lookup_insert _ _ _ s) by done. simpl.
      by rewrite (alter_chunk_lookup _ _ _ c).
    + rewrite (alter_lookup_insert _ _ _ s) by done. simpl.
      by rewrite (alter_chunk_lookup _ _ _ c).
Qed.

(** A tick that is not deferred, on the record [u] at the head. *)
Lemma tick_running w now now' u :
  past_deadline (chunkUpdateDeadline w) now = false →
  pendingChunkUpdates w = Some u →
  processPendingChunkUpdates now now' w =
    match applied u w with
    | (Ok _, w1) => advance u now' w1
    | (Throw e, w1) => (Throw e, w1)
    end.
Proof. intros. by rewrite (tick_running_raw _ _ _ u), applyUpdate_spec. Qed.

(** [applied] writes the object table and the dispatch count only. *)
Lemma applied_frame u w r w1 :
  applied u w = (r, w1) →
  w1 = set_visibleChunksChanged (visibleChunksChanged w1) (set_objects (objects w1) w).
Proof.
  unfold applied, transition_result, put_chunks, dispatched. intros H.
  destruct w. repeat (case_match || case_decide); by simplify_eq/=.
Qed.

Lemma transition_result_objects u s m c w r w' :
  transition_result u s m c w = (r, w') →
  ∃ m', objects w' = <[Update.source (fields u) := with_chunks m' s]> (objects w) ∧
        (m' = m ∨ m' = <[Update.id (fields u) := Chunk.copyToGPU c]> m ∨
         m' = <[Update.id (fields u) := Chunk.freeGPUMemory c]> m).
Proof.
  unfold transition_result. intros H.
  destruct (decide (Update.state (fields u) = Chunk.state c)).
  { simplify_eq. eauto. }
  destruct (Update.state (fields u)); simplify_eq; simpl; eauto.
Qed.

(** ** Records that refer to a missing chunk *)

(** C10. A record that is not flagged ['new'], whose target state is not
    EXPIRED and whose id is not in the chunk map of its source, makes the
    tick throw a TypeError at [chunk.state]: [chunks.get] returned
    [undefined].  The tick is not a no-op that skips the record: it
    throws, and the record stays at the head of the queue. *)
Theorem missing_chunk_throws (w : World) (now now' : Z) (u : UpdateRef)
    (s : ChunkSource) :
  past_deadline (chunkUpdateDeadline w) now = false →
  pendingChunkUpdates w = Some u →
  Update.new (fields u) = false →
  Update.state (fields u) ≠ EXPIRED →
  objects w !! Update.source (fields u) = Some s →
  chunks s !! Update.id (fields u) = None →
  ChunkSource_chunks_get (Update.source (fields u)) (Update.id (fields u)) w = (Ok None, w) ∧
  processPendingChunkUpdates now now' w = (Throw TypeError, w).
Proof.
  intros Hd Hu Hnew Hst Hs Hc. split.
  - unfold ChunkSource_chunks_get, gets. by rewrite Hs; simpl; rewrite Hc.
  - rewrite (tick_running _ _ _ u) by done. unfold applied.
    rewrite Hs, Hnew, Hc. by destruct (decide _).
Qed.

Lemma missing_chunk_throws_witness :
  let w := example_world [Update.mk 2 "c1" GPU_MEMORY false 8] in
  processPendingChunkUpdates 0 0 w = (Throw TypeError, w).
Proof.
  intros w.
  apply (missing_chunk_throws w 0 0
           {| addr := 0; fields := Update.mk 2 "c1" GPU_MEMORY false 8 |}
           (construct example_class (example_options 0 1)));
    by vm_compute.
Defined.

(** ** Expired records *)

(** C5. A record whose target state is EXPIRED makes the tick delete the
    record's id from the chunk map of its source, whatever the state of
    the chunk under that id and whatever the ['new'] flag: the tick
    returns normally, the source's chunks become [delete id chunks], which
    is the same map when the id was absent, no slot holds a chunk it did
    not hold before, and no notification is dispatched. *)
Theorem expired_record_deletes (w : World) (now now' : Z) (u : UpdateRef)
    (s : ChunkSource) :
  past_deadline (chunkUpdateDeadline w) now = false →
  pendingChunkUpdates w = Some u →
  Update.state (fields u) = EXPIRED →
  objects w !! Update.source (fields u) = Some s →
  let '(r, w') := processPendingChunkUpdates now now' w in
  r = Ok (Processed u) ∧
  objects w' = <[Update.source (fields u) :=
                   with_chunks (delete (Update.id (fields u)) (chunks s)) s]> (objects w) ∧
  (chunks s !! Update.id (fields u) = None → objects w' = objects w) ∧
  (∀ src s' key c, objects w' !! src = Some s' → chunks s' !! key = Some c →
     ∃ s0, objects w !! src = Some s0 ∧ chunks s0 !! key = Some c) ∧
  visibleChunksChanged w' = visibleChunksChanged w.
Proof.
  intros Hd Hu Hst Hs.
  rewrite (tick_running _ _ _ u) by done. unfold applied.
  rewrite Hs. destruct (decide _) as [_|]; [|done].
  rewrite advance_spec.
  set (w1 := put_chunks _ _ _ w).
  assert (objects w1 = <[Update.source (fields u) :=
            with_chunks (delete (Update.id (fields u)) (chunks s)) s]> (objects w))
    as Ho by done.
  assert (visibleChunksChanged w1 = visibleChunksChanged w) as Hv by done.
  assert (∀ w2, objects w2 = objects w1 →
                visibleChunksChanged w2 = visibleChunksChanged w1 →
    objects w2 = <[Update.source (fields u) :=
                   with_chunks (delete (Update.id (fields u)) (chunks s)) s]> (objects w) ∧
    (chunks s !! Update.id (fields u) = None → objects w2 = objects w) ∧
    (∀ src s' key c, objects w2 !! src = Some s' → chunks s' !! key = Some c →
       ∃ s0, objects w !! src = Some s0 ∧ chunks s0 !! key = Some c) ∧
    visibleChunksChanged w2 = visibleChunksChanged w) as Hall.
  { intros w2 Ho2 Hv2. rewrite Ho2, Hv2, Ho. split_and!; [done| |  |done].
    - intros Hc. rewrite delete_id by done.
      replace (with_chunks (chunks s) s) with s by by destruct s.
      by rewrite insert_id.
    - intros src s' key c. rewrite lookup_insert. case_decide as Hsrc.
      + intros [= <-]. simpl. rewrite lookup_delete. case_decide; [done|].
        subst src. eauto.
      + eauto. }
  destruct (nextUpdate w1 !! addr u); (split; [done|]); by apply Hall.
Qed.

Lemma expired_record_deletes_witness :
  let w := example_world [Update.mk 2 "c2" EXPIRED true 8] in
  let '(r, w') := processPendingChunkUpdates 0 0 w in
  r = Ok (Processed {| addr := 0; fields := Update.mk 2 "c2" EXPIRED true 8 |}) ∧
  objects w' = objects w.
Proof.
  intros w.
  pose proof (expired_record_deletes w 0 0
                {| addr := 0; fields := Update.mk 2 "c2" EXPIRED true 8 |}
                (construct example_class (example_options 0 1))
                eq_refl eq_refl eq_refl eq_refl) as H.
  destruct (processPendingChunkUpdates 0 0 w) as [r w'].
  destruct H as (Hr & _ & Habsent & _). split; [exact Hr|].
  apply Habsent. by vm_compute.
Defined.

(** ** The chunk factory *)

Lemma tick_throws_not_implemented w now now' w' :
  processPendingChunkUpdates now now' w = (Throw (Error "Not implemented."), w') ↔
    w' = w ∧
    past_deadline (chunkUpdateDeadline w) now = false ∧
    ∃ u s, pendingChunkUpdates w = Some u ∧
           objects w !! Update.source (fields u) = Some s ∧
           overridesGetChunk s = false ∧
           Update.new (fields u) = true ∧
           Update.state (fields u) ≠ EXPIRED.
Proof.
  split.
  - destruct (past_deadline (chunkUpdateDeadline w) now) eqn:Hd.
    { by rewrite tick_deferred. }
    destruct (pendingChunkUpdates w) as [u|] eqn:Hu.
    2: { by rewrite tick_empty. }
    rewrite (tick_running _ _ _ u) by done. unfold applied.
    destruct (objects w !! Update.source (fields u)) as [s|] eqn:Hs; [|done].
    destruct (decide (Update.state (fields u) = EXPIRED)) as [Hex|Hex].
    { by rewrite advance_spec. }
    destruct (Update.new (fields u)) eqn:Hnew.
    + destruct (overridesGetChunk s) eqn:Hov.
      * unfold transition_result. destruct (decide _).
        { by rewrite advance_spec. }
        destruct (Update.state (fields u)); by rewrite ?advance_spec.
      * intros [= <-]. split_and!; try done. by exists u, s.
    + destruct (chunks s !! Update.id (fields u)) as [c|]; [|done].
      unfold transition_result. destruct (decide _).
      { by rewrite advance_spec. }
      destruct (Update.state (fields u)); by rewrite ?advance_spec.
  - intros (-> & Hd & u & s & Hu & Hs & Hov & Hnew & Hex).
    rewrite (tick_running _ _ _ u) by done. unfold applied.
    rewrite Hs, Hnew, Hov. by destruct (decide _).
Qed.

(** The object table after a tick. *)
Lemma tick_objects w now now' r w' :
  processPendingChunkUpdates now now' w = (r, w') →
  objects w' = objects w ∨
  ∃ u s m, pendingChunkUpdates w = Some u ∧
           objects w !! Update.source (fields u) = Some s ∧
           slot_written u s m ∧
           objects w' = <[Update.source (fields u) := with_chunks m s]> (objects w).
Proof.
  destruct (past_deadline (chunkUpdateDeadline w) now) eqn:Hd.
  { rewrite tick_deferred by done. intros [= <- <-]. by left. }
  destruct (pendingChunkUpdates w) as [u|] eqn:Hu.
  2: { rewrite tick_empty by done. intros [= <- <-]. by left. }
  rewrite (tick_running _ _ _ u) by done. unfold applied.
  intros H.
  assert (∃ r1 w1, objects w' = objects w1 ∧ applied u w = (r1, w1))
    as (r1 & w1 & -> & H1).
  { fold (applied u w) in H. destruct (applied u w) as [[[]|e] w1];
      [|simplify_eq; eauto].
    rewrite advance_spec in H. exists (Ok ()), w1. split; [|done].
    simplify_eq. by destruct (nextUpdate w1 !! addr u). }
  unfold applied in H1.
  clear H.
  destruct (objects w !! Update.source (fields u)) as [s|] eqn:Hs.
  2: { simplify_eq. by left. }
  destruct (decide (Update.state (fields u) = EXPIRED)) as [Hex|Hex].
  { simplify_eq. right. exists u, s, (delete (Update.id (fields u)) (chunks s)).
    split_and!; try done. by constructor. }
  destruct (Update.new (fields u)) eqn:Hnew.
  - destruct (overridesGetChunk s) eqn:Hov.
    2: { simplify_eq. by left. }
    apply transition_result_objects in H1 as (m' & -> & Hm').
    right. exists u, s, m'. split_and!; try done.
    destruct Hm' as [->|[->| ->]]; rewrite ?insert_insert_eq.
    + apply written_created; auto.
    + apply written_created; auto.
    + apply written_created; auto.
  - destruct (chunks s !! Update.id (fields u)) as [c|] eqn:Hc.
    2: { simplify_eq. by left. }
    apply transition_result_objects in H1 as (m' & -> & Hm').
    right. exists u, s, m'. split_and!; try done.
    destruct Hm' as [->|[->| ->]].
    + rewrite <-(insert_id (chunks s) _ _ Hc). apply (written_found u s c); auto.
    + apply (written_found u s c); auto.
    + apply (written_found u s c); auto.
Qed.

(** Which slots of the chunk maps a tick can fill. *)
Lemma tick_fills_slot w now now' r w' src s' key c :
  processPendingChunkUpdates now now' w = (r, w') →
  objects w' !! src = Some s' → chunks s' !! key = Some c →
  (∃ s c0, objects w !! src = Some s ∧ chunks s !! key = Some c0) ∨
  (∃ u, pendingChunkUpdates w = Some u ∧
        Update.source (fields u) = src ∧ Update.id (fields u) = key ∧
        Update.new (fields u) = true ∧ Update.state (fields u) ≠ EXPIRED).
Proof.
  intros [Ho|(u & s & m & Hu & Hs & Hm & Ho)]%tick_objects; rewrite Ho.
  { eauto. }
  rewrite lookup_insert. case_decide as Hsrc; [|by eauto].
  intros [= <-]. simpl. subst src.
  destruct (decide (key = Update.id (fields u))) as [->|Hne].
  - destruct Hm as [Hex|c' Hex Hnew Hov Hc'|c0 c' Hex Hnew Hc0 Hc'].
    + by rewrite lookup_delete_eq.
    + right. exists u. by split_and!.
    + left. eauto.
  - destruct Hm; rewrite ?lookup_delete_ne, ?lookup_insert_ne by done; eauto.
Qed.

(** C8. The [getChunk] of class [ChunkSource] throws [Error('Not
    implemented.')] on every input.  A tick throws that error exactly when
    it is not deferred and the record at the head is flagged ['new'], has a
    target state other than EXPIRED, and names a source whose class does
    not override [getChunk]; the world is then unchanged.  More generally a
    tick puts a chunk in a slot that held none only for a record flagged
    ['new'] whose target state is not EXPIRED. *)
Theorem default_getChunk_not_implemented :
  (∀ x w, ChunkSource_getChunk x w = (Throw (Error "Not implemented."), w)) ∧
  (∀ w now now' w',
     processPendingChunkUpdates now now' w = (Throw (Error "Not implemented."), w') ↔
       w' = w ∧
       past_deadline (chunkUpdateDeadline w) now = false ∧
       ∃ u s, pendingChunkUpdates w = Some u ∧
              objects w !! Update.source (fields u) = Some s ∧
              overridesGetChunk s = false ∧
              Update.new (fields u) = true ∧
              Update.state (fields u) ≠ EXPIRED) ∧
  (∀ w now now' r w' src s' key c,
     processPendingChunkUpdates now now' w = (r, w') →
     objects w' !! src = Some s' → chunks s' !! key = Some c →
     (∃ s c0, objects w !! src = Some s ∧ chunks s !! key = Some c0) ∨
     (∃ u, pendingChunkUpdates w = Some u ∧
           Update.source (fields u) = src ∧ Update.id (fields u) = key ∧
           Update.new (fields u) = true ∧ Update.state (fields u) ≠ EXPIRED)).
Proof.
  split_and!.
  - done.
  - apply tick_throws_not_implemented.
  - apply tick_fills_slot.
Qed.

Lemma default_getChunk_not_implemented_witness :
  let w := example_world [Update.mk 3 "c1" GPU_MEMORY true 8] in
  processPendingChunkUpdates 0 0 w = (Throw (Error "Not implemented."), w).
Proof.
  intros w.
  apply (proj1 (proj2 default_getChunk_not_implemented) w 0 0 w).
  split_and!; [done..|].
  exists {| addr := 0; fields := Update.mk 3 "c1" GPU_MEMORY true 8 |},
         (construct ChunkSource_class (example_options 1 1)).
  by vm_compute.
Defined.

(** ** Target states *)

Lemma transition_result_throw u s m c w e w1 :
  transition_result u s m c w = (Throw e, w1) →
  e = InvalidChunkState (Update.state (fields u)) ∧
  Update.state (fields u) ≠ GPU_MEMORY ∧
  Update.state (fields u) ≠ SYSTEM_MEMORY ∧
  Update.state (fields u) ≠ Chunk.state c.
Proof.
  unfold transition_result. destruct (decide _) as [|Hne]; [done|].
  destruct (Update.state (fields u)); by intros [= <- <-].
Qed.

Lemma transition_result_invalid u s m c w :
  Update.state (fields u) ≠ GPU_MEMORY →
  Update.state (fields u) ≠ SYSTEM_MEMORY →
  Update.state (fields u) ≠ Chunk.state c →
  transition_result u s m c w =
    (Throw (InvalidChunkState (Update.state (fields u))),
     put_chunks (Update.source (fields u)) s m w).
Proof.
  intros Hg Hs Hc. unfold transition_result.
  destruct (decide _) as [|_]; [done|].
  by destruct (Update.state (fields u)).
Qed.

Lemma applied_invalid_state u w st w1 :
  applied u w = (Throw (InvalidChunkState st), w1) →
  Update.state (fields u) = st ∧
  st ≠ GPU_MEMORY ∧ st ≠ SYSTEM_MEMORY ∧ st ≠ EXPIRED.
Proof.
  unfold applied.
  destruct (objects w !! Update.source (fields u)) as [s|]; [|done].
  destruct (decide (Update.state (fields u) = EXPIRED)) as [Hex|Hex]; [done|].
  destruct (Update.new (fields u)).
  - destruct (overridesGetChunk s); [|done].
    intros (? & ? & ? & ?)%transition_result_throw. by simplify_eq.
  - destruct (chunks s !! Update.id (fields u)); [|done].
    intros (? & ? & ? & ?)%transition_result_throw. by simplify_eq.
Qed.

Lemma applied_pending u w r w1 :
  applied u w = (r, w1) → pendingChunkUpdates w1 = pendingChunkUpdates w.
Proof. intros ->%applied_frame. done. Qed.

(** ** The visibility notification *)

Lemma transition_result_dispatch u s m c w r w1 :
  transition_result u s m c w = (r, w1) →
  visibleChunksChanged w1 =
    (visibleChunksChanged w +
     if bool_decide (Update.state (fields u) = GPU_MEMORY) &&
        bool_decide (Chunk.state c ≠ GPU_MEMORY) then 1 else 0)%nat ∧
  (Update.state (fields u) = GPU_MEMORY → r = Ok ()).
Proof.
  unfold transition_result.
  destruct (decide (Update.state (fields u) = Chunk.state c)) as [Heq|Hne].
  - intros [= <- <-]. simpl. split; [|done].
    destruct (bool_decide_reflect (Update.state (fields u) = GPU_MEMORY)); simpl; [|lia].
    rewrite bool_decide_eq_false_2 by congruence. lia.
  - destruct (Update.state (fields u)) eqn:Hst; intros [= <- <-]; simpl;
      (split; [|done]); try lia.
    rewrite bool_decide_eq_true_2 by done. lia.
Qed.

Lemma applied_dispatch u w r w1 :
  applied u w = (r, w1) →
  visibleChunksChanged w1 =
    (visibleChunksChanged w + if promotes w u then 1 else 0)%nat ∧
  (promotes w u = true → r = Ok ()).
Proof.
  unfold applied, promotes, resolved_chunk.
  destruct (objects w !! Update.source (fields u)) as [s|]; simpl.
  2: { intros [= <- <-]. rewrite andb_false_r. split; [lia|done]. }
  destruct (decide (Update.state (fields u) = EXPIRED)) as [Hex|Hex].
  { intros [= <- <-]. rewrite bool_decide_eq_false_2 by congruence.
    simpl. split; [lia|done]. }
  destruct (Update.new (fields u)).
  - destruct (overridesGetChunk s).
    + intros [? Hr]%transition_result_dispatch. split; [done|].
      intros [?%bool_decide_eq_true _]%andb_true_iff. auto.
    + intros [= <- <-]. rewrite andb_false_r. split; [lia|done].
  - destruct (chunks s !! Update.id (fields u)) as [c|].
    + intros [? Hr]%transition_result_dispatch. split; [done|].
      intros [?%bool_decide_eq_true _]%andb_true_iff. auto.
    + intros [= <- <-]. rewrite andb_false_r. split; [lia|done].
Qed.

Lemma advance_visibleChunksChanged u now' w r w' :
  advance u now' w = (r, w') → visibleChunksChanged w' = visibleChunksChanged w.
Proof.
  rewrite advance_spec. intros [= <- <-]. by destruct (nextUpdate w !! addr u).
Qed.

(** C3. A tick that processes the record [u] dispatches
    [visibleChunksChanged] once if the record moves its chunk into GPU
    memory (the target state is GPU_MEMORY and differs from the state of
    the chunk the record resolves to) and not at all otherwise; in the
    first case the tick returns normally.  In particular nothing is
    dispatched for a record whose target is SYSTEM_MEMORY, for a record
    whose target is EXPIRED, or for a record whose target is the state its
    chunk is in. *)
Theorem notification_iff_promotion (w : World) (now now' : Z) (u : UpdateRef) :
  past_deadline (chunkUpdateDeadline w) now = false →
  pendingChunkUpdates w = Some u →
  let '(r, w') := processPendingChunkUpdates now now' w in
  visibleChunksChanged w' =
    (visibleChunksChanged w + if promotes w u then 1 else 0)%nat ∧
  (promotes w u = true → r = Ok (Processed u)) ∧
  (Update.state (fields u) = SYSTEM_MEMORY →
   visibleChunksChanged w' = visibleChunksChanged w) ∧
  (Update.state (fields u) = EXPIRED →
   visibleChunksChanged w' = visibleChunksChanged w) ∧
  (∀ c, resolved_chunk w u = Some c →
        Update.state (fields u) = Chunk.state c →
        visibleChunksChanged w' = visibleChunksChanged w).
Proof.
  intros Hd Hu. rewrite (tick_running _ _ _ u) by done.
  destruct (applied u w) as [r1 w1] eqn:Ha.
  apply applied_dispatch in Ha as [Hv Hr].
  assert (∀ r w', (r, w') = match r1 with
                            | Ok _ => advance u now' w1
                            | Throw e => (Throw e, w1)
                            end →
    visibleChunksChanged w' = visibleChunksChanged w1 ∧
    (r1 = Ok () → r = Ok (Processed u))) as Hadv.
  { intros r w' H. destruct r1 as [[]|e].
    - split; [by eapply advance_visibleChunksChanged|].
      rewrite advance_spec in H. by simplify_eq.
    - by simplify_eq. }
  destruct (match r1 with Ok _ => _ | Throw e => _ end) as [r w'] eqn:Ht.
  destruct (Hadv r w' eq_refl) as [Hv' Hr'].
  rewrite Hv', Hv. split_and!; [done|by auto|..].
  - intros Hst. unfold promotes. rewrite Hst. simpl. lia.
  - intros Hst. unfold promotes. rewrite Hst. simpl. lia.
  - intros c Hc Hst. unfold promotes. rewrite Hc, Hst.
    destruct (bool_decide_reflect (Chunk.state c = GPU_MEMORY)); simpl; [|lia].
    rewrite bool_decide_eq_false_2 by tauto. lia.
Qed.

Lemma notification_iff_promotion_witness :
  let w := example_world [Update.mk 2 "c1" GPU_MEMORY true 8] in
  let '(r, w') := processPendingChunkUpdates 0 0 w in
  visibleChunksChanged w' = S (visibleChunksChanged w).
Proof.
  intros w.
  pose proof (notification_iff_promotion w 0 0
                {| addr := 0; fields := Update.mk 2 "c1" GPU_MEMORY true 8 |}
                eq_refl eq_refl) as H.
  destruct (processPendingChunkUpdates 0 0 w) as [r w'].
  destruct H as (-> & _). by vm_compute.
Defined.

(** ** The handler and the registry, case by case *)

Lemma Chunk_update_spec now x w :
  let xr := {| addr := received w; fields := x |} in
  let w0 := set_received (S (received w)) w in
  Chunk_update now x w =
    match objects w !! Update.source x with
    | None => (Throw TypeError, w0)
    | Some _ =>
        match pendingChunkUpdatesTail w with
        | None =>
            (Ok xr,
             set_timeouts (timeouts w ++ [schedule_delay w now])
               (set_pendingChunkUpdatesTail (Some xr)
                  (set_pendingChunkUpdates (Some xr) w0)))
        | Some tl =>
            (Ok xr,
             set_pendingChunkUpdatesTail (Some xr)
               (set_nextUpdate (<[addr tl := xr]> (nextUpdate w)) w0))
        end
    end.
Proof.
  unfold Chunk_update, rpc_get. unfold_M. simpl.
  destruct (objects w !! Update.source x); simpl; [|done].
  destruct (pendingChunkUpdatesTail w); simpl; [done|].
  by rewrite scheduleChunkUpdate_spec.
Qed.

Section Registry.
Variable stableStringify : gmap string Json → string.
Variable getObjectId : nat → Json.

Lemma getChunkSource_spec ctor options w :
  let key := stableStringify (keyObject getObjectId ctor options) in
  getChunkSource stableStringify getObjectId ctor options w =
    match memoize w !! key with
    | Some obj => (Ok obj, set_objects (alter addRef obj (objects w)) w)
    | None =>
        (Ok (nextId w),
         set_memoize (<[key := nextId w]> (memoize w))
           (set_objects (<[nextId w := construct ctor options]> (objects w))
              (set_nextId (S (nextId w)) w)))
    end.
Proof.
  unfold getChunkSource, StringMemoize_get, initializeCounterpart, with_source.
  unfold_M. simpl. by destruct (memoize w !! _).
Qed.
End Registry.

(** ** The registry of chunk sources *)

Lemma registry_ok_initial capacities : registry_ok (initial_world capacities).
Proof.
  split_and!; simpl.
  - intros id [? H]. by rewrite lookup_empty in H.
  - intros k id H. by rewrite lookup_empty in H.
  - intros k1 k2 id H. by rewrite lookup_empty in H.
Qed.

Lemma registry_ok_alter (f : ChunkSource → ChunkSource) id w :
  registry_ok w → registry_ok (set_objects (alter f id (objects w)) w).
Proof.
  intros (Hlt & Hreg & Hinj). split_and!; simpl.
  - intros i [s Hs]. apply Hlt.
    rewrite lookup_alter in Hs. case_decide; [|by eauto].
    subst. destruct (objects w !! i); [by eexists|by simpl in Hs].
  - intros k i Hk. destruct (Hreg _ _ Hk) as [s Hs].
    rewrite lookup_alter. case_decide; subst; rewrite Hs; by eauto.
  - done.
Qed.

Section Registry_properties.
Variable stableStringify : gmap string Json → string.
Variable getObjectId : nat → Json.

#[local] Abbreviation getChunkSource := (getChunkSource stableStringify getObjectId).
#[local] Abbreviation keyObject := (keyObject getObjectId).

Lemma getChunkSource_registry_ok ctor options w r w' :
  registry_ok w →
  getChunkSource ctor options w = (r, w') →
  registry_ok w'.
Proof.
  intros Hok. rewrite getChunkSource_spec.
  destruct (memoize w !! _) as [obj|] eqn:Hm; intros [= <- <-].
  { by apply registry_ok_alter. }
  destruct Hok as (Hlt & Hreg & Hinj). split_and!; simpl.
  - intros i [s Hs]. rewrite lookup_insert in Hs. case_decide; [lia|].
    assert (i < nextId w)%nat by eauto. lia.
  - intros k i. rewrite !lookup_insert. case_decide.
    + intros [= <-]. rewrite decide_True by done. eauto.
    + intros Hk. case_decide; eauto.
  - intros k1 k2 i. rewrite !lookup_insert.
    assert (∀ k, memoize w !! k = Some (nextId w) → False) as Hfresh.
    { intros k Hk. apply Hreg, Hlt in Hk. lia. }
    repeat case_decide; intros; simplify_eq; try done; [by destruct (Hfresh k2)|
      by destruct (Hfresh k1)|by eauto].
Qed.

(** After a call, the source it returned is memoized under the key of the
    call. *)
Lemma getChunkSource_memoized ctor options w r w' :
  getChunkSource ctor options w = (r, w') →
  ∃ id, r = Ok id ∧
        memoize w' !! stableStringify (keyObject ctor options) = Some id.
Proof.
  rewrite getChunkSource_spec.
  destruct (memoize w !! _) as [obj|] eqn:Hm; intros [= <- <-]; simpl.
  - eauto.
  - rewrite lookup_insert_eq. eauto.
Qed.

Lemma getChunkSource_twice ctor1 ctor2 o1 o2 w :
  keyObject ctor1 o1 = keyObject ctor2 o2 →
  let '(r1, w1) := getChunkSource ctor1 o1 w in
  let '(r2, w2) := getChunkSource ctor2 o2 w1 in
  ∃ id, r1 = Ok id ∧ r2 = Ok id ∧
        w2 = set_objects (alter addRef id (objects w1)) w1.
Proof.
  intros Hkey.
  destruct (getChunkSource ctor1 o1 w) as [r1 w1] eqn:H1.
  apply getChunkSource_memoized in H1 as (id & -> & Hm).
  rewrite getChunkSource_spec, <-Hkey, Hm. eauto.
Qed.

Lemma getChunkSource_distinct ctor1 ctor2 o1 o2 w :
  registry_ok w →
  stableStringify (keyObject ctor1 o1) ≠ stableStringify (keyObject ctor2 o2) →
  let '(r1, w1) := getChunkSource ctor1 o1 w in
  let '(r2, w2) := getChunkSource ctor2 o2 w1 in
  ∃ id1 id2, r1 = Ok id1 ∧ r2 = Ok id2 ∧ id1 ≠ id2.
Proof.
  intros Hok Hkey.
  destruct (getChunkSource ctor1 o1 w) as [r1 w1] eqn:H1.
  pose proof (getChunkSource_registry_ok _ _ _ _ _ Hok H1) as (Hlt & Hreg & Hinj).
  apply getChunkSource_memoized in H1 as (id1 & -> & Hm).
  rewrite getChunkSource_spec.
  destruct (memoize w1 !! stableStringify (keyObject ctor2 o2)) as [id2|] eqn:Hm2.
  - exists id1, id2. split_and!; [done..|]. intros ->. by eauto.
  - exists id1, (nextId w1). split_and!; [done..|].
    apply Hreg, Hlt in Hm. lia.
Qed.
End Registry_properties.

(** The classes of frontend.ts encode the properties of the options, never
    their identity. *)
Lemma ChunkSource_encodeOptions_structural o1 o2 :
  ChunkSource_encodeOptions o1 = ChunkSource_encodeOptions o2.
Proof. done. Qed.

Lemma WithParameters_encodeOptions_structural oid Base o1 o2 :
  encodeOptions Base o1 = encodeOptions Base o2 →
  properties o1 = properties o2 →
  encodeOptions (WithParameters oid Base) o1 = encodeOptions (WithParameters oid Base) o2.
Proof. simpl. unfold get_property. by intros -> ->. Qed.

Lemma keyObject_parameters getObjectId oid Base o :
  keyObject getObjectId (WithParameters oid Base) o !! "parameters" =
    Some (get_property o "parameters").
Proof.
  unfold keyObject. simpl.
  rewrite lookup_insert_ne by done. by rewrite lookup_insert_eq.
Qed.

(** C4, as the code has it.  Two calls of [getChunkSource] with the same
    constructor return the same instance, the second one without
    constructing or registering anything (it only adds a reference),
    whenever [encodeOptions] of the constructor gives the two options
    objects the same encoding; for class [ChunkSource] and for the classes
    [WithParameters] builds on it, that is the case whenever the two
    objects have the same properties, whatever their identities.  Two calls
    return different instances whenever their key objects (the encoding,
    with the id of the constructor) differ and [stableStringify] maps the
    two to different strings; for a class built by [WithParameters], the
    key objects differ whenever [options.parameters] differ.  A property of
    the options that [encodeOptions] does not encode does not tell
    instances apart: class [ChunkSource] encodes none, so all calls with it
    return one instance. *)
Theorem getChunkSource_shares_by_encoding
    (stableStringify : gmap string Json → string) (getObjectId : nat → Json) :
  (∀ ctor o1 o2 w,
     encodeOptions ctor o1 = encodeOptions ctor o2 →
     let '(r1, w1) := getChunkSource stableStringify getObjectId ctor o1 w in
     let '(r2, w2) := getChunkSource stableStringify getObjectId ctor o2 w1 in
     ∃ id, r1 = Ok id ∧ r2 = Ok id ∧
           nextId w2 = nextId w1 ∧ memoize w2 = memoize w1 ∧
           objects w2 = alter addRef id (objects w1)) ∧
  (∀ o1 o2, encodeOptions ChunkSource_class o1 = encodeOptions ChunkSource_class o2) ∧
  (∀ oid Base o1 o2,
     encodeOptions Base o1 = encodeOptions Base o2 →
     properties o1 = properties o2 →
     encodeOptions (WithParameters oid Base) o1 =
       encodeOptions (WithParameters oid Base) o2) ∧
  (∀ ctor1 ctor2 o1 o2 w,
     registry_ok w →
     keyObject getObjectId ctor1 o1 ≠ keyObject getObjectId ctor2 o2 →
     (stableStringify (keyObject getObjectId ctor1 o1) =
        stableStringify (keyObject getObjectId ctor2 o2) →
      keyObject getObjectId ctor1 o1 = keyObject getObjectId ctor2 o2) →
     let '(r1, w1) := getChunkSource stableStringify getObjectId ctor1 o1 w in
     let '(r2, w2) := getChunkSource stableStringify getObjectId ctor2 o2 w1 in
     ∃ id1 id2, r1 = Ok id1 ∧ r2 = Ok id2 ∧ id1 ≠ id2) ∧
  (∀ oid Base o1 o2,
     get_property o1 "parameters" ≠ get_property o2 "parameters" →
     keyObject getObjectId (WithParameters oid Base) o1 ≠
       keyObject getObjectId (WithParameters oid Base) o2).
Proof.
  split_and!.
  - intros ctor o1 o2 w Henc.
    pose proof (getChunkSource_twice stableStringify getObjectId ctor ctor o1 o2 w) as H.
    destruct (getChunkSource _ _ ctor o1 w) as [r1 w1].
    destruct (getChunkSource _ _ ctor o2 w1) as [r2 w2].
    destruct H as (id & -> & -> & ->); [unfold keyObject; by rewrite Henc|].
    by exists id.
  - apply ChunkSource_encodeOptions_structural.
  - apply WithParameters_encodeOptions_structural.
  - intros ctor1 ctor2 o1 o2 w Hok Hne Hinj.
    apply getChunkSource_distinct; [done|]. by intros ?%Hinj.
  - intros oid Base o1 o2 Hne Heq. apply Hne.
    apply (f_equal (λ m, m !! "parameters")) in Heq.
    rewrite !keyObject_parameters in Heq. by simplify_eq.
Qed.

Lemma getChunkSource_shares_by_encoding_witness :
  let ctor := WithParameters 9 ChunkSource_class in
  let '(r1, w1) := getChunkSource sample_stringify sample_getObjectId ctor
                     (example_options 0 1) (initial_world example_capacities) in
  let '(r2, w2) := getChunkSource sample_stringify sample_getObjectId ctor
                     (example_options 1 2) w1 in
  ∃ id1 id2, r1 = Ok id1 ∧ r2 = Ok id2 ∧ id1 ≠ id2.
Proof.
  intros ctor.
  apply (proj1 (proj2 (proj2 (proj2
           (getChunkSource_shares_by_encoding sample_stringify sample_getObjectId))))
           ctor ctor (example_options 0 1) (example_options 1 2)).
  - apply registry_ok_initial.
  - apply (proj2 (proj2 (proj2 (proj2
             (getChunkSource_shares_by_encoding sample_stringify sample_getObjectId))))).
    intros H.
    apply (f_equal (λ j, match j with JObject m => m !! "a" | _ => None end)) in H.
    vm_compute in H. discriminate.
  - intros H. exfalso. revert H. apply (bool_decide_unpack _). by vm_compute.
Defined.

(** C4 as stated fails: with constructor [ChunkSource], two options objects
    that differ in their [parameters] (and that the serializer would tell
    apart) get the same instance, because [ChunkSource.encodeOptions]
    returns [{}] for both. *)
Lemma getChunkSource_ignores_unencoded_options :
  properties (example_options 0 1) ≠ properties (example_options 1 2) ∧
  sample_stringify (properties (example_options 0 1)) ≠
    sample_stringify (properties (example_options 1 2)) ∧
  let '(r1, w1) := getChunkSource sample_stringify sample_getObjectId ChunkSource_class
                     (example_options 0 1) (initial_world example_capacities) in
  let '(r2, w2) := getChunkSource sample_stringify sample_getObjectId ChunkSource_class
                     (example_options 1 2) w1 in
  r1 = Ok 2%nat ∧ r2 = Ok 2%nat.
Proof.
  split_and!.
  - intros H.
    apply (f_equal (λ m, match m !! "parameters" with
                         | Some (JObject m') => m' !! "a"
                         | _ => None
                         end)) in H.
    vm_compute in H. discriminate.
  - apply (bool_decide_unpack _). by vm_compute.
  - by vm_compute.
Qed.

(** ** The pending queue *)

Lemma linked_functional next head l1 l2 :
  linked next head l1 → linked next head l2 → l1 = l2.
Proof.
  revert head l2. induction l1 as [|u l1 IH]; intros head [|u2 l2]; simpl.
  - done.
  - by intros -> [? _].
  - by intros [-> _] ?.
  - intros [-> H1] [[= <-] H2]. f_equal. by eapply IH.
Qed.

(** Appending at the tail: writing [x] to [nextUpdate] of the last record
    of the queue adds [x] at the end of the list, and changes nothing
    else. *)
Lemma linked_snoc next head l tl x :
  linked next head l →
  last l = Some tl →
  NoDup (addr <$> l) →
  addr x ∉ addr <$> l →
  next !! addr x = None →
  linked (<[addr tl := x]> next) head (l ++ [x]).
Proof.
  revert head. induction l as [|u l IH]; intros head; [done|].
  simpl. intros [-> Hl] Hlast [Hu Hnd]%NoDup_cons [Hxu Hxl]%not_elem_of_cons Hx.
  split; [done|]. destruct l as [|u' l].
  - simpl in *. simplify_eq. rewrite lookup_insert_eq. split; [done|].
    by rewrite lookup_insert_ne.
  - assert (addr tl ≠ addr u) as Hne.
    { intros Heq. apply Hu. rewrite <-Heq.
      apply list_elem_of_fmap_2, last_Some_elem_of. done. }
    rewrite lookup_insert_ne by done. by apply IH.
Qed.

Lemma queue_ok_initial capacities : queue_ok (initial_world capacities) [].
Proof.
  unfold queue_ok, pending. simpl. split_and!; try done.
  - constructor.
  - by intros u ?%elem_of_nil.
  - intros a [? H]. by rewrite lookup_empty in H.
  - lia.
Qed.

(** The handler appends the record it received at the tail. *)
Lemma Chunk_update_queue_ok now x w l r w' :
  queue_ok w l →
  Chunk_update now x w = (r, w') →
  match r with
  | Ok xr => xr = {| addr := received w; fields := x |} ∧ queue_ok w' (l ++ [xr])
  | Throw _ => queue_ok w' l
  end.
Proof.
  intros (Hl & Htl & Hnd & Hlt & Hdom & Htm & Hlen).
  rewrite Chunk_update_spec.
  destruct (objects w !! Update.source x) as [s|]; simpl.
  2: { intros [= <- <-]. unfold queue_ok, pending; simpl. split_and!; try done.
       - intros u Hu. apply Hlt in Hu. lia.
       - intros a Ha. apply Hdom in Ha. lia. }
  assert (nextUpdate w !! received w = None) as Hfresh.
  { destruct (nextUpdate w !! received w) eqn:E; [|done].
    assert (received w < received w)%nat by eauto. lia. }
  assert (received w ∉ addr <$> l) as Hnew.
  { intros (u & Hu & Hin)%list_elem_of_fmap. apply Hlt in Hin. lia. }
  destruct (pendingChunkUpdatesTail w) as [tl|] eqn:Htail; intros [= <- <-].
  - split; [done|]. unfold queue_ok, pending; simpl. split_and!.
    + by apply linked_snoc.
    + by rewrite last_snoc.
    + rewrite fmap_app. apply NoDup_app. split_and!; [done| |by apply NoDup_singleton].
      intros a Ha ->%list_elem_of_singleton. done.
    + intros u [Hu| ->%list_elem_of_singleton]%elem_of_app; simpl; [|lia].
      apply Hlt in Hu. lia.
    + intros a. rewrite lookup_insert. case_decide as Ha.
      * intros _. subst a. symmetry in Htl. apply last_Some_elem_of, Hlt in Htl. lia.
      * intros H. apply Hdom in H. lia.
    + intros _. by destruct l.
    + done.
  - symmetry in Htl. apply last_None in Htl. subst l.
    assert (timeouts w = []) as Ht.
    { destruct (timeouts w); [done|]. by destruct Htm. }
    split; [done|]. unfold queue_ok, pending; simpl. rewrite Ht.
    split_and!; simpl; try done.
    + apply NoDup_singleton.
    + intros u ->%list_elem_of_singleton. simpl. lia.
    + intros a H. apply Hdom in H. lia.
Qed.

Lemma set_objects_same w : set_objects (objects w) w = w.
Proof. by destruct w. Qed.

Lemma transition_result_throw_frame u s m c w e w1 :
  transition_result u s m c w = (Throw e, w1) →
  w1 = set_objects (objects w1) w.
Proof.
  intros H. pose proof H as (_ & Hg & Hs & Hc)%transition_result_throw.
  rewrite transition_result_invalid in H by done. by simplify_eq.
Qed.

(** A tick that throws has written the object table only. *)
Lemma tick_throw_frame now now' w e w' :
  processPendingChunkUpdates now now' w = (Throw e, w') →
  w' = set_objects (objects w') w.
Proof.
  destruct (past_deadline (chunkUpdateDeadline w) now) eqn:Hd.
  { by rewrite tick_deferred. }
  destruct (pendingChunkUpdates w) as [u|] eqn:Hu.
  2: { rewrite tick_empty by done. intros [= <- <-]. by rewrite set_objects_same. }
  rewrite (tick_running _ _ _ u) by done.
  destruct (applied u w) as [[[]|e1] w1] eqn:Ha.
  { by rewrite advance_spec. }
  intros [= <- <-]. revert Ha. unfold applied.
  destruct (objects w !! Update.source (fields u)) as [s|].
  2: { intros [= <- <-]. by rewrite set_objects_same. }
  destruct (decide (Update.state (fields u) = EXPIRED)); [done|].
  destruct (Update.new (fields u)).
  - destruct (overridesGetChunk s).
    + apply transition_result_throw_frame.
    + intros [= <- <-]. by rewrite set_objects_same.
  - destruct (chunks s !! Update.id (fields u)).
    + apply transition_result_throw_frame.
    + intros [= <- <-]. by rewrite set_objects_same.
Qed.

(** A tick takes the record at the head, and no other. *)
Lemma tick_pending now now' w l t w' :
  pending w l →
  processPendingChunkUpdates now now' w = (Ok t, w') →
  match t with
  | Deferred =>
      w' = set_timeouts (timeouts w ++ [chunkUpdateDelay w]) w
  | Processed u =>
      ∃ l', l = u :: l' ∧ pending w' l' ∧
            nextUpdate w' = nextUpdate w ∧
            received w' = received w ∧
            pendingChunkUpdatesTail w' =
              match l' with [] => None | _ => pendingChunkUpdatesTail w end ∧
            timeouts w' =
              timeouts w ++ match l' with [] => [] | _ => [schedule_delay w now'] end
  end.
Proof.
  intros Hl.
  destruct (past_deadline (chunkUpdateDeadline w) now) eqn:Hd.
  { rewrite tick_deferred by done. by intros [= <- <-]. }
  destruct (pendingChunkUpdates w) as [u|] eqn:Hu.
  2: { by rewrite tick_empty. }
  rewrite (tick_running _ _ _ u) by done.
  destruct (applied u w) as [[[]|e] w1] eqn:Ha; [|done].
  apply applied_frame in Ha. rewrite advance_spec. intros [= <- <-].
  unfold pending in Hl. rewrite Hu in Hl.
  destruct l as [|u0 l']; [done|]. destruct Hl as [[= <-] Hl].
  exists l'. split; [done|].
  assert (nextUpdate w1 = nextUpdate w) as Hnx by by rewrite Ha.
  assert (timeouts w1 = timeouts w) as Htm by by rewrite Ha.
  assert (received w1 = received w) as Hrc by by rewrite Ha.
  assert (pendingChunkUpdatesTail w1 = pendingChunkUpdatesTail w) as Htl by by rewrite Ha.
  assert (schedule_delay w1 now' = schedule_delay w now') as Hsd by by rewrite Ha.
  rewrite Hnx. unfold pending.
  destruct (nextUpdate w !! addr u) as [n|] eqn:Hn; simpl;
    rewrite ?Hnx, ?Htm, ?Htl, ?Hsd, ?Hrc.
  - destruct l' as [|u1 l']; [done|]. by destruct Hl as [[= <-] Hl].
  - destruct l' as [|u1 l']; [|by destruct Hl]. rewrite app_nil_r. done.
Qed.

Lemma queue_ok_frame w w' l :
  pendingChunkUpdates w' = pendingChunkUpdates w →
  pendingChunkUpdatesTail w' = pendingChunkUpdatesTail w →
  nextUpdate w' = nextUpdate w →
  received w' = received w →
  timeouts w' = timeouts w →
  queue_ok w l → queue_ok w' l.
Proof. unfold queue_ok, pending. by intros -> -> -> -> ->. Qed.

Section Runs.
Variable stableStringify : gmap string Json → string.
Variable getObjectId : nat → Json.

#[local] Abbreviation perform := (perform stableStringify getObjectId).
#[local] Abbreviation run := (run stableStringify getObjectId).

Lemma perform_queue_ok c w l e w' :
  queue_ok w l →
  perform c w = (e, w') →
  ∃ l', queue_ok w' l' ∧ l ++ enqueued [e] = processed [e] ++ l'.
Proof.
  intros Hok. destruct c as [now x|i now now'|d|ctor options]; simpl.
  - destruct (Chunk_update now x w) as [r w1] eqn:Hc. intros [= <- <-].
    apply (Chunk_update_queue_ok _ _ _ l) in Hc; [|done].
    destruct r as [xr|err].
    + exists (l ++ [xr]). by destruct Hc.
    + exists l. by rewrite app_nil_r.
  - destruct (timeouts w !! i) as [d|] eqn:Hi.
    2: { intros [= <- <-]. exists l. by rewrite app_nil_r. }
    destruct Hok as (Hl & Htl & Hnd & Hlt & Hdom & Htm & Hlen).
    assert (timeouts w = [d] ∧ i = 0%nat) as [Ht ->].
    { destruct (timeouts w) as [|d0 [|d1 ts]]; simpl in *; [done| |lia].
      destruct i as [|i]; simpl in Hi; [by simplify_eq|by rewrite lookup_nil in Hi]. }
    rewrite Ht. simpl.
    set (w0 := set_timeouts [] w).
    assert (l ≠ []) as Hne by (apply Htm; by rewrite Ht).
    destruct (processPendingChunkUpdates now now' w0) as [[t|err] w1] eqn:Htick;
      intros [= <- <-].
    + apply (tick_pending _ _ _ l) in Htick; [|done].
      destruct t as [|u].
      * exists l. rewrite app_nil_r. split; [|done]. subst w1.
        unfold queue_ok, pending; simpl. by split_and!.
      * destruct Htick as (l' & -> & Hl' & Hnx & Hrc & Htl' & Htm').
        exists l'. split; [|by rewrite app_nil_r]. unfold queue_ok.
        rewrite Hnx, Hrc, Htl', Htm'. simpl.
        apply NoDup_cons in Hnd as [_ Hnd].
        split_and!; try done.
        -- destruct l'; [done|]. by rewrite Htl.
        -- intros u' Hu'. apply Hlt. by right.
        -- by destruct l'.
        -- destruct l'; simpl; lia.
    + exists l. rewrite app_nil_r. split; [|done].
      apply tick_throw_frame in Htick. rewrite Htick.
      unfold queue_ok, pending; simpl. split_and!; try done. lia.
  - intros [= <- <-]. exists l. rewrite app_nil_r. split; [|done].
    by apply (queue_ok_frame w).
  - rewrite getChunkSource_spec.
    destruct (memoize w !! _); intros [= <- <-];
      exists l; rewrite app_nil_r; (split; [|done]); by apply (queue_ok_frame w).
Qed.

Lemma run_queue_ok cs w l es w' :
  queue_ok w l →
  run cs w = (es, w') →
  ∃ l', queue_ok w' l' ∧ l ++ enqueued es = processed es ++ l'.
Proof.
  revert w l es. induction cs as [|c cs IH]; intros w l es Hok; simpl.
  - intros [= <- <-]. exists l. by rewrite app_nil_r.
  - destruct (perform c w) as [e w1] eqn:Hc.
    destruct (run cs w1) as [es1 w2] eqn:Hr. intros [= <- <-].
    destruct (perform_queue_ok _ _ _ _ _ Hok Hc) as (l1 & Hok1 & H1).
    destruct (IH _ _ _ Hok1 Hr) as (l2 & Hok2 & H2).
    exists l2. split; [done|].
    change (e :: es1) with ([e] ++ es1).
    unfold enqueued, processed in *. rewrite !omap_app.
    by rewrite (assoc_L (++)), H1, <-!(assoc_L (++)), H2.
Qed.
End Runs.

(** ** Chunks over a run *)

(** What a tick does to a slot that holds a chunk afterwards. *)
Lemma tick_slot now now' w r w' src s' key c' :
  processPendingChunkUpdates now now' w = (r, w') →
  objects w' !! src = Some s' → chunks s' !! key = Some c' →
  (∃ s c0, objects w !! src = Some s ∧ chunks s !! key = Some c0 ∧
           (c' = c0 ∨ c' = Chunk.copyToGPU c0 ∨ c' = Chunk.freeGPUMemory c0)) ∨
  c' = Chunk.new src ∨ c' = Chunk.copyToGPU (Chunk.new src).
Proof.
  intros [Ho|(u & s & m & Hu & Hs & Hm & Ho)]%tick_objects; rewrite Ho.
  { left. eauto 10. }
  rewrite lookup_insert. case_decide as Hsrc; [|left; by eauto 10].
  intros [= <-]. simpl. subst src.
  destruct (decide (key = Update.id (fields u))) as [->|Hne].
  - destruct Hm as [Hex|c1 Hex Hnew Hov Hc1|c0 c1 Hex Hnew Hc0 Hc1].
    + by rewrite lookup_delete_eq.
    + rewrite lookup_insert_eq. intros [= <-]. by right.
    + rewrite lookup_insert_eq. intros [= <-]. left. eauto 10.
  - destruct Hm; rewrite ?lookup_delete_ne, ?lookup_insert_ne by done;
      left; eauto 10.
Qed.

Lemma tick_capacities now now' w r w' :
  processPendingChunkUpdates now now' w = (r, w') → capacities w' = capacities w.
Proof.
  destruct (past_deadline (chunkUpdateDeadline w) now) eqn:Hd.
  { rewrite tick_deferred by done. by intros [= <- <-]. }
  destruct (pendingChunkUpdates w) as [u|] eqn:Hu.
  2: { rewrite tick_empty by done. by intros [= <- <-]. }
  rewrite (tick_running _ _ _ u) by done.
  destruct (applied u w) as [[[]|e] w1] eqn:Ha.
  - apply applied_frame in Ha. rewrite advance_spec. intros [= <- <-].
    rewrite Ha. by destruct (nextUpdate _ !! _).
  - apply applied_frame in Ha. intros [= <- <-]. by rewrite Ha.
Qed.

Section Runs_chunks.
Variable stableStringify : gmap string Json → string.
Variable getObjectId : nat → Json.

#[local] Abbreviation perform := (perform stableStringify getObjectId).
#[local] Abbreviation run := (run stableStringify getObjectId).

(** A call changes the state of a chunk by [copyToGPU] or [freeGPUMemory]
    only; a chunk that was not there before is one the constructor built,
    as built or after [copyToGPU]. *)
Lemma perform_slot c w e w' src s' key c' :
  perform c w = (e, w') →
  objects w' !! src = Some s' → chunks s' !! key = Some c' →
  (∃ s c0, objects w !! src = Some s ∧ chunks s !! key = Some c0 ∧
           (c' = c0 ∨ c' = Chunk.copyToGPU c0 ∨ c' = Chunk.freeGPUMemory c0)) ∨
  c' = Chunk.new src ∨ c' = Chunk.copyToGPU (Chunk.new src).
Proof.
  destruct c as [now x|i now now'|d|ctor options]; simpl.
  - rewrite Chunk_update_spec.
    destruct (objects w !! Update.source x); [destruct (pendingChunkUpdatesTail w)|];
      intros [= <- <-]; simpl; left; eauto 10.
  - destruct (timeouts w !! i).
    2: { intros [= <- <-]. left. eauto 10. }
    destruct (processPendingChunkUpdates _ _ _) as [r w1] eqn:Ht.
    intros [= <- <-]. by apply (tick_slot _ _ _ _ _ _ _ _ _ Ht).
  - intros [= <- <-]. left. eauto 10.
  - rewrite getChunkSource_spec.
    destruct (memoize w !! _) as [obj|]; intros [= <- <-]; simpl.
    + rewrite lookup_alter. case_decide; [subst obj|left; by eauto 10].
      destruct (objects w !! src) as [s|]; [|done].
      intros [= <-]. simpl. left. eauto 10.
    + rewrite lookup_insert. case_decide; [|left; by eauto 10].
      intros [= <-]. simpl. by rewrite lookup_empty.
Qed.

Lemma perform_chunk_states_ok c w e w' :
  chunk_states_ok w → perform c w = (e, w') → chunk_states_ok w'.
Proof.
  intros Hok Hc src s' Hs' key c' Hc'.
  destruct (perform_slot _ _ _ _ _ _ _ _ Hc Hs' Hc')
    as [(s & c0 & Hs & Hc0 & Hch)|[-> | ->]]; [|by left|by right].
  destruct Hch as [->|[-> | ->]]; [|by right|by left].
  exact (Hok _ _ Hs _ _ Hc0).
Qed.

Lemma run_chunk_states_ok cs w es w' :
  chunk_states_ok w → run cs w = (es, w') → chunk_states_ok w'.
Proof.
  revert w es. induction cs as [|c cs IH]; intros w es Hok; simpl.
  - by intros [= <- <-].
  - destruct (perform c w) as [e w1] eqn:Hc.
    destruct (run cs w1) as [es1 w2] eqn:Hr. intros [= <- <-].
    eapply IH; [|done]. by eapply perform_chunk_states_ok.
Qed.

Lemma perform_capacities c w e w' :
  perform c w = (e, w') → capacities w' = capacities w.
Proof.
  destruct c as [now x|i now now'|d|ctor options]; simpl.
  - rewrite Chunk_update_spec.
    destruct (objects w !! Update.source x); [destruct (pendingChunkUpdatesTail w)|];
      by intros [= <- <-].
  - destruct (timeouts w !! i); [|by intros [= <- <-]].
    destruct (processPendingChunkUpdates _ _ _) as [r w1] eqn:Ht.
    intros [= <- <-]. by rewrite (tick_capacities _ _ _ _ _ Ht).
  - by intros [= <- <-].
  - rewrite getChunkSource_spec. destruct (memoize w !! _); by intros [= <- <-].
Qed.

Lemma run_capacities cs w es w' :
  run cs w = (es, w') → capacities w' = capacities w.
Proof.
  revert w es. induction cs as [|c cs IH]; intros w es; simpl.
  - by intros [= <- <-].
  - destruct (perform c w) as [e w1] eqn:Hc.
    destruct (run cs w1) as [es1 w2] eqn:Hr. intros [= <- <-].
    by rewrite (IH _ _ Hr), (perform_capacities _ _ _ _ Hc).
Qed.
End Runs_chunks.

Lemma chunk_states_ok_initial capacities : chunk_states_ok (initial_world capacities).
Proof. intros src s H. simpl in H. by rewrite lookup_empty in H. Qed.

(** ** Records with another target state *)

(** C6. On a world whose chunks are all in system or GPU memory, a tick
    that is not deferred and finds at the head a record whose target state
    is none of SYSTEM_MEMORY, GPU_MEMORY and EXPIRED throws, and leaves the
    record at the head; when the record's source and chunk resolve, the
    error is the ['Invalid chunk state'] one for that state.  Every world
    reached from the initial one by any sequence of calls is such a world.
    Conversely a tick throws that error only for the state of the record
    at the head, and only if that state is none of the three. *)
Theorem invalid_target_state_throws
    (stableStringify : gmap string Json → string) (getObjectId : nat → Json) :
  (∀ capacities cs,
     chunk_states_ok
       (snd (run stableStringify getObjectId cs (initial_world capacities)))) ∧
  (∀ w now now' u,
     chunk_states_ok w →
     past_deadline (chunkUpdateDeadline w) now = false →
     pendingChunkUpdates w = Some u →
     Update.state (fields u) ≠ SYSTEM_MEMORY →
     Update.state (fields u) ≠ GPU_MEMORY →
     Update.state (fields u) ≠ EXPIRED →
     ∃ e w',
       processPendingChunkUpdates now now' w = (Throw e, w') ∧
       pendingChunkUpdates w' = Some u ∧
       (is_Some (resolved_chunk w u) →
        e = InvalidChunkState (Update.state (fields u)))) ∧
  (∀ w now now' st w',
     processPendingChunkUpdates now now' w = (Throw (InvalidChunkState st), w') →
     st ≠ SYSTEM_MEMORY ∧ st ≠ GPU_MEMORY ∧ st ≠ EXPIRED ∧
     ∃ u, pendingChunkUpdates w = Some u ∧ Update.state (fields u) = st).
Proof.
  split_and!.
  - intros capacities cs. destruct (run _ _ cs _) as [es w] eqn:Hr.
    exact (run_chunk_states_ok _ _ _ _ _ _ (chunk_states_ok_initial capacities) Hr).
  - intros w now now' u Hok Hd Hu Hsys Hgpu Hex.
    rewrite (tick_running _ _ _ u) by done.
    destruct (applied u w) as [[[]|e] w1] eqn:Ha.
    + exfalso. revert Ha. unfold applied.
      destruct (objects w !! Update.source (fields u)) as [s|] eqn:Hs; [|done].
      destruct (decide (Update.state (fields u) = EXPIRED)); [done|].
      destruct (Update.new (fields u)).
      * destruct (overridesGetChunk s); [|done].
        by rewrite transition_result_invalid.
      * destruct (chunks s !! Update.id (fields u)) as [c|] eqn:Hc; [|done].
        rewrite transition_result_invalid; [done..|].
        intros Heq. destruct (Hok _ _ Hs _ _ Hc) as [Hst|Hst]; congruence.
    + exists e, w1. split_and!; [done|by rewrite (applied_pending _ _ _ _ Ha)|].
      unfold resolved_chunk. revert Ha. unfold applied.
      destruct (objects w !! Update.source (fields u)) as [s|] eqn:Hs; simpl.
      2: { by intros _ [? ?]. }
      destruct (decide (Update.state (fields u) = EXPIRED)); [done|].
      destruct (Update.new (fields u)).
      * destruct (overridesGetChunk s); [|by intros _ [? ?]].
        by intros (? & _)%transition_result_throw.
      * destruct (chunks s !! Update.id (fields u)) as [c|] eqn:Hc;
          [|by intros _ [? ?]].
        by intros (? & _)%transition_result_throw.
  - intros w now now' st w'.
    destruct (past_deadline (chunkUpdateDeadline w) now) eqn:Hd.
    { by rewrite tick_deferred. }
    destruct (pendingChunkUpdates w) as [u|] eqn:Hu.
    2: { by rewrite tick_empty. }
    rewrite (tick_running _ _ _ u) by done.
    destruct (applied u w) as [[[]|e] w1] eqn:Ha.
    { by rewrite advance_spec. }
    intros [= -> ->]. apply applied_invalid_state in Ha as (? & ? & ? & ?).
    split_and!; try done. by exists u.
Qed.

Lemma invalid_target_state_throws_witness :
  let w := example_world [Update.mk 2 "c1" (OTHER_STATE 4) true 8] in
  ∃ w', processPendingChunkUpdates 0 0 w =
          (Throw (InvalidChunkState (OTHER_STATE 4)), w').
Proof.
  intros w.
  pose proof (invalid_target_state_throws sample_stringify sample_getObjectId)
    as (Hreach & Hthrows & _).
  assert (chunk_states_ok w) as Hok by apply Hreach.
  assert (is_Some (resolved_chunk w
            {| addr := 0; fields := Update.mk 2 "c1" (OTHER_STATE 4) true 8 |}))
    as Hres.
  { vm_compute. by eexists. }
  pose proof (Hthrows w 0 0
                {| addr := 0; fields := Update.mk 2 "c1" (OTHER_STATE 4) true 8 |}
                Hok eq_refl eq_refl
                ltac:(discriminate) ltac:(discriminate) ltac:(discriminate))
    as (e & w' & Ht & _ & He).
  exists w'. rewrite Ht. f_equal. f_equal. exact (He Hres).
Defined.

(** ** Order of processing *)




(** ** Chunk states *)

(** C9. A chunk is constructed in state SYSTEM_MEMORY; [copyToGPU] sets
    the state to GPU_MEMORY and [freeGPUMemory] to SYSTEM_MEMORY.  In every
    world reached from the initial one by any sequence of calls, every
    chunk in the chunk map of a source is in state SYSTEM_MEMORY or
    GPU_MEMORY.  A call changes a chunk that a slot holds by [copyToGPU] or
    by [freeGPUMemory] only, and a chunk that appears in a slot is one the
    constructor built, as built or after [copyToGPU]. *)
Theorem chunks_in_system_or_gpu_memory
    (stableStringify : gmap string Json → string) (getObjectId : nat → Json) :
  (∀ source, Chunk.state (Chunk.new source) = SYSTEM_MEMORY) ∧
  (∀ c, Chunk.state (Chunk.copyToGPU c) = GPU_MEMORY ∧
        Chunk.state (Chunk.freeGPUMemory c) = SYSTEM_MEMORY) ∧
  (∀ capacities cs src s key c,
     objects (snd (run stableStringify getObjectId cs (initial_world capacities))) !! src
       = Some s →
     chunks s !! key = Some c →
     Chunk.state c = SYSTEM_MEMORY ∨ Chunk.state c = GPU_MEMORY) ∧
  (∀ call w src s' key c',
     objects (snd (perform stableStringify getObjectId call w)) !! src = Some s' →
     chunks s' !! key = Some c' →
     (∃ s c0, objects w !! src = Some s ∧ chunks s !! key = Some c0 ∧
              (c' = c0 ∨ c' = Chunk.copyToGPU c0 ∨ c' = Chunk.freeGPUMemory c0)) ∨
     c' = Chunk.new src ∨ c' = Chunk.copyToGPU (Chunk.new src)).
Proof.
  split_and!; [done|done| |].
  - intros capacities cs src s key c.
    destruct (run _ _ cs _) as [es w] eqn:Hr. simpl. intros Hs Hc.
    exact (run_chunk_states_ok _ _ _ _ _ _
             (chunk_states_ok_initial capacities) Hr _ _ Hs _ _ Hc).
  - intros call w src s' key c'.
    destruct (perform _ _ call w) as [e w'] eqn:Hc. simpl.
    by apply (perform_slot _ _ _ _ _ _ _ _ _ _ Hc).
Qed.

Lemma chunks_in_system_or_gpu_memory_witness :
  let w := snd (example_run [Recv 0 (Update.mk 2 "c1" GPU_MEMORY true 8); Fire 0 0 0]) in
  ∃ s c, objects w !! 2%nat = Some s ∧ chunks s !! "c1" = Some c ∧
         (Chunk.state c = SYSTEM_MEMORY ∨ Chunk.state c = GPU_MEMORY).
Proof.
  intros w.
  set (s := with_chunks {[ "c1" := Chunk.mk 2 GPU_MEMORY ]}
              (construct example_class (example_options 0 1))).
  set (c := Chunk.mk 2 GPU_MEMORY).
  assert (objects w !! 2%nat = Some s) as Hs by (vm_compute; reflexivity).
  assert (chunks s !! "c1" = Some c) as Hc by (vm_compute; reflexivity).
  exists s, c. split; [exact Hs|]. split; [exact Hc|].
  exact (proj1 (proj2 (proj2
           (chunks_in_system_or_gpu_memory sample_stringify sample_getObjectId)))
           example_capacities
           (GetChunkSource example_class (example_options 0 1) ::
            GetChunkSource ChunkSource_class (example_options 1 1) ::
            [Recv 0 (Update.mk 2 "c1" GPU_MEMORY true 8); Fire 0 0 0])
           2%nat s "c1" c Hs Hc).
Defined.

(** ** Capacities *)

(** C7, as the code has it.  No call of the frontend writes a capacity:
    after any sequence of calls, and after any tick, the capacities are
    what they were.  So the [used] value of GPU memory after a tick that
    promotes a chunk and a tick that demotes it is the value before the
    two, and it is also the value between them: promotion reserves
    nothing.  On the chunk itself, [freeGPUMemory] undoes [copyToGPU]. *)
Theorem capacities_never_written
    (stableStringify : gmap string Json → string) (getObjectId : nat → Json) :
  (∀ cs w, capacities (snd (run stableStringify getObjectId cs w)) = capacities w) ∧
  (∀ w now1 now1' now2 now2',
     let '(r1, w1) := processPendingChunkUpdates now1 now1' w in
     let '(r2, w2) := processPendingChunkUpdates now2 now2' w1 in
     used (gpuMemory (capacities w1)) = used (gpuMemory (capacities w)) ∧
     used (gpuMemory (capacities w2)) = used (gpuMemory (capacities w))) ∧
  (∀ c, Chunk.state c = SYSTEM_MEMORY →
        Chunk.freeGPUMemory (Chunk.copyToGPU c) = c).
Proof.
  split_and!.
  - intros cs w. destruct (run _ _ cs w) as [es w'] eqn:Hr.
    by apply run_capacities in Hr.
  - intros w now1 now1' now2 now2'.
    destruct (processPendingChunkUpdates now1 now1' w) as [r1 w1] eqn:H1.
    destruct (processPendingChunkUpdates now2 now2' w1) as [r2 w2] eqn:H2.
    apply tick_capacities in H1, H2. by rewrite H2, H1.
  - intros [src st] Hst. simpl in Hst. by subst st.
Qed.

(** C7 as stated fails: the tick that processes a record promoting a new
    chunk of payload size 100 leaves the chunk in GPU memory and the [used]
    value of GPU memory where it was, not 100 higher. *)
Lemma promotion_reserves_nothing :
  let u := {| addr := 0; fields := Update.mk 2 "c1" GPU_MEMORY true 100 |} in
  let w := example_world [fields u] in
  let '(r, w') := processPendingChunkUpdates 0 0 w in
  r = Ok (Processed u) ∧
  promotes w u = true ∧
  (objects w' !! 2%nat ≫= λ s, chunks s !! "c1") = Some (Chunk.mk 2 GPU_MEMORY) ∧
  used (gpuMemory (capacities w)) = 0 ∧
  used (gpuMemory (capacities w')) ≠
    used (gpuMemory (capacities w)) + Update.chunkDataSize (fields u).
Proof. by vm_compute. Qed.

(** ** The scenarios of the specification, run on the code *)

(** Scenarios A and B: a record that creates [c1] in GPU memory, then a
    record that moves it back to system memory.  The first tick creates the
    chunk, copies it to the GPU and dispatches one notification; the second
    frees the GPU memory and dispatches none. *)
Example scenario_promote_then_demote :
  let a := Update.mk 2 "c1" GPU_MEMORY true 8 in
  let b := Update.mk 2 "c1" SYSTEM_MEMORY false 8 in
  let w1 := snd (example_run [Recv 0 a; Recv 0 b; Fire 0 0 0]) in
  let w2 := snd (example_run [Recv 0 a; Recv 0 b; Fire 0 0 0; Fire 0 0 0]) in
  (objects w1 !! 2%nat ≫= λ s, chunks s !! "c1") = Some (Chunk.mk 2 GPU_MEMORY) ∧
  visibleChunksChanged w1 = 1%nat ∧
  timeouts w1 = [0] ∧
  (objects w2 !! 2%nat ≫= λ s, chunks s !! "c1") = Some (Chunk.mk 2 SYSTEM_MEMORY) ∧
  visibleChunksChanged w2 = 1%nat ∧
  pendingChunkUpdates w2 = None ∧ pendingChunkUpdatesTail w2 = None ∧
  timeouts w2 = [].
Proof. vm_compute. by repeat split. Qed.

(** Scenario C: a record flagged ['new'] with target EXPIRED creates no
    chunk. *)
Example scenario_expired_new_record :
  let w := snd (example_run [Recv 0 (Update.mk 2 "c2" EXPIRED true 8); Fire 0 0 0]) in
  (objects w !! 2%nat ≫= λ s, chunks s !! "c2") = None ∧
  visibleChunksChanged w = 0%nat.
Proof. vm_compute. by repeat split. Qed.

(** Scenario D: with the deadline in the past the tick is put off by
    [chunkUpdateDelay], and the record stays queued. *)
Example scenario_deadline_in_the_past :
  let a := Update.mk 2 "c1" GPU_MEMORY true 8 in
  let '(es, w) := example_run [SetDeadline (Some 100); Recv 150 a; Fire 0 150 150] in
  es !! 4%nat = Some (Ticked (Ok Deferred)) ∧
  pendingChunkUpdates w = Some {| addr := 0; fields := a |} ∧
  (objects w !! 2%nat ≫= λ s, chunks s !! "c1") = None ∧
  timeouts w = [30].
Proof. vm_compute. by repeat split. Qed.

(** Scenario E: two options objects built separately, with the same
    properties, get the same source. *)
Example scenario_same_parameters :
  let ctor := WithParameters 9 ChunkSource_class in
  let o1 := {| identity := 10;
               properties := {[ "parameters" :=
                 JObject {[ "a" := JNumber 1; "b" := JNumber 2 ]} ]} |} in
  let o2 := {| identity := 11;
               properties := {[ "parameters" :=
                 JObject {[ "b" := JNumber 2; "a" := JNumber 1 ]} ]} |} in
  fst (run sample_stringify sample_getObjectId
         [GetChunkSource ctor o1; GetChunkSource ctor o2]
         (initial_world example_capacities))
    = [Acquired (Ok 2%nat); Acquired (Ok 2%nat)].
Proof. by vm_compute. Qed.

(** * Further properties of the code *)

(** ** What a processed record leaves behind *)

Lemma tick_processed_inv now now' w u w' :
  processPendingChunkUpdates now now' w = (Ok (Processed u), w') →
  past_deadline (chunkUpdateDeadline w) now = false ∧
  pendingChunkUpdates w = Some u ∧
  ∃ w1, applied u w = (Ok (), w1) ∧ objects w' = objects w1 ∧
        visibleChunksChanged w' = visibleChunksChanged w1.
Proof.
  destruct (past_deadline (chunkUpdateDeadline w) now) eqn:Hd.
  { by rewrite tick_deferred. }
  destruct (pendingChunkUpdates w) as [u0|] eqn:Hu.
  2: { by rewrite tick_empty. }
  rewrite (tick_running _ _ _ u0) by done.
  destruct (applied u0 w) as [[[]|e] w1] eqn:Ha; [|done].
  rewrite advance_spec. intros [= <- <-]. split_and!; [done..|].
  exists w1. by destruct (nextUpdate w1 !! addr u0).
Qed.

Lemma transition_result_ok u s m c w w1 :
  m !! Update.id (fields u) = Some c →
  transition_result u s m c w = (Ok (), w1) →
  ∃ m' c', objects w1 = <[Update.source (fields u) := with_chunks m' s]> (objects w) ∧
           m' !! Update.id (fields u) = Some c' ∧
           Chunk.state c' = Update.state (fields u) ∧
           Chunk.source c' = Chunk.source c ∧
           ∀ k, k ≠ Update.id (fields u) → m' !! k = m !! k.
Proof.
  intros Hm. unfold transition_result.
  destruct (decide (Update.state (fields u) = Chunk.state c)) as [Heq|Hne].
  { intros [= <-]. exists m, c. by split_and!. }
  destruct (Update.state (fields u)) eqn:Hst; intros [= <-]; simpl.
  - exists (<[Update.id (fields u) := Chunk.copyToGPU c]> m), (Chunk.copyToGPU c).
    split_and!; try done; [by rewrite lookup_insert_eq|].
    intros k Hk. by rewrite lookup_insert_ne.
  - exists (<[Update.id (fields u) := Chunk.freeGPUMemory c]> m), (Chunk.freeGPUMemory c).
    split_and!; try done; [by rewrite lookup_insert_eq|].
    intros k Hk. by rewrite lookup_insert_ne.
Qed.

Lemma tick_processed_slot (w : World) (now now' : Z)
    (u : UpdateRef) (w' : World) :
  processPendingChunkUpdates now now' w = (Ok (Processed u), w') →
  ∃ s', objects w' !! Update.source (fields u) = Some s' ∧
        if decide (Update.state (fields u) = EXPIRED)
        then chunks s' !! Update.id (fields u) = None
        else ∃ c, chunks s' !! Update.id (fields u) = Some c ∧
                  Chunk.state c = Update.state (fields u) ∧
                  (Update.new (fields u) = true →
                   Chunk.source c = Update.source (fields u)).
Proof.
  intros (Hd & Hu & w1 & Ha & -> & _)%tick_processed_inv.
  revert Ha. unfold applied.
  destruct (objects w !! Update.source (fields u)) as [s|] eqn:Hs; [|done].
  destruct (decide (Update.state (fields u) = EXPIRED)) as [Hex|Hex].
  { intros [= <-]. simpl. rewrite lookup_insert_eq. eexists. split; [done|].
    simpl. by rewrite lookup_delete_eq. }
  destruct (Update.new (fields u)) eqn:Hnew.
  - destruct (overridesGetChunk s); [|done].
    intros (m' & c' & -> & Hc' & Hst & Hsrc & _)%transition_result_ok;
      [|by rewrite lookup_insert_eq].
    rewrite lookup_insert_eq. eexists. split; [done|]. simpl. eauto.
  - destruct (chunks s !! Update.id (fields u)) as [c|] eqn:Hc; [|done].
    intros (m' & c' & -> & Hc' & Hst & Hsrc & _)%transition_result_ok; [|done].
    rewrite lookup_insert_eq. eexists. split; [done|]. simpl.
    exists c'. by split_and!.
Qed.


(** X1. When a tick has processed a record, the slot the record names
    holds what the record asked for: no chunk if the target state is
    EXPIRED, and otherwise a chunk whose state is the target state and
    whose back-reference is the record's source when the record was
    flagged ['new']. *)
Theorem processed_record_reaches_target (w : World) (now now' : Z)
    (u : UpdateRef) (w' : World) :
  processPendingChunkUpdates now now' w = (Ok (Processed u), w') →
  ∃ s', objects w' !! Update.source (fields u) = Some s' ∧
        if decide (Update.state (fields u) = EXPIRED)
        then chunks s' !! Update.id (fields u) = None
        else ∃ c, chunks s' !! Update.id (fields u) = Some c ∧
                  Chunk.state c = Update.state (fields u) ∧
                  (Update.new (fields u) = true →
                   Chunk.source c = Update.source (fields u)).
Proof. apply tick_processed_slot. Qed.

Lemma processed_record_reaches_target_witness :
  let u := {| addr := 0; fields := Update.mk 2 "c1" GPU_MEMORY true 8 |} in
  let w := example_world [fields u] in
  ∃ s' c, objects (snd (processPendingChunkUpdates 0 0 w)) !! 2%nat = Some s' ∧
          chunks s' !! "c1" = Some c ∧ Chunk.state c = GPU_MEMORY.
Proof.
  intros u w.
  assert (processPendingChunkUpdates 0 0 w =
            (Ok (Processed u), snd (processPendingChunkUpdates 0 0 w))) as Ht.
  { vm_compute. reflexivity. }
  destruct (processed_record_reaches_target w 0 0 u _ Ht) as (s' & Hs' & H).
  clear Ht. destruct (decide _) as [Hex|_]; [discriminate Hex|].
  destruct H as (c & Hc & Hst & _).
  exists s', c. split; [exact Hs'|]. split; [exact Hc|exact Hst].
Defined.

(** ** Timeouts and the queue *)

Lemma pending_nil_iff w l : pending w l → (l = [] ↔ pendingChunkUpdates w = None).
Proof.
  unfold pending. destruct l as [|u l]; simpl.
  - by intros ->.
  - intros [-> _]. by split.
Qed.

Section Wake_up.
Variable stableStringify : gmap string Json → string.
Variable getObjectId : nat → Json.

#[local] Abbreviation perform := (perform stableStringify getObjectId).
#[local] Abbreviation run := (run stableStringify getObjectId).

(** While no tick throws, a queue that is not empty has a timeout
    pending. *)
Lemma perform_wake_up c w l e w' :
  queue_ok w l →
  (pendingChunkUpdates w ≠ None → timeouts w ≠ []) →
  perform c w = (e, w') →
  tick_threw e = false →
  pendingChunkUpdates w' ≠ None → timeouts w' ≠ [].
Proof.
  intros Hok HJ. destruct c as [now x|i now now'|d|ctor options]; simpl.
  - rewrite Chunk_update_spec.
    destruct (objects w !! Update.source x); [destruct (pendingChunkUpdatesTail w)|];
      intros [= <- <-] _; simpl; try done.
    intros _. by destruct (timeouts w).
  - destruct (timeouts w !! i) as [d|] eqn:Hi; [|by intros [= <- <-]].
    destruct (processPendingChunkUpdates _ _ _) as [[t|err] w1] eqn:Ht;
      intros [= <- <-]; [intros _|done].
    destruct Hok as (Hl & _).
    apply (tick_pending _ _ _ l) in Ht; [|done].
    destruct t as [|u].
    + subst w1. simpl. intros _. by destruct (delete i (timeouts w)).
    + destruct Ht as (l' & -> & Hl' & _ & _ & _ & ->). simpl.
      intros Hhead. destruct l' as [|u' l'].
      * destruct Hhead. by apply (pending_nil_iff _ _ Hl').
      * by destruct (delete i (timeouts w)).
  - by intros [= <- <-].
  - rewrite getChunkSource_spec. destruct (memoize w !! _); by intros [= <- <-].
Qed.

Lemma run_wake_up cs w l es w' :
  queue_ok w l →
  (pendingChunkUpdates w ≠ None → timeouts w ≠ []) →
  run cs w = (es, w') →
  Forall (λ e, tick_threw e = false) es →
  pendingChunkUpdates w' ≠ None → timeouts w' ≠ [].
Proof.
  revert w l es. induction cs as [|c cs IH]; intros w l es Hok HJ; simpl.
  - by intros [= <- <-].
  - destruct (perform c w) as [e w1] eqn:Hc.
    destruct (run cs w1) as [es1 w2] eqn:Hr. intros [= <- <-].
    intros [He Hes]%Forall_cons.
    destruct (perform_queue_ok _ _ _ _ _ _ _ Hok Hc) as (l1 & Hok1 & _).
    apply (IH w1 l1 es1); [done| |done|done].
    exact (perform_wake_up c w l e w1 Hok HJ Hc He).
Qed.

(** After a tick has thrown, no timeout is pending and none is ever
    scheduled again. *)
Lemma perform_stalled c w l e w' :
  queue_ok w l → l ≠ [] → timeouts w = [] →
  perform c w = (e, w') →
  timeouts w' = [] ∧ processed [e] = [].
Proof.
  intros (Hl & Htl & _) Hne Ht.
  destruct c as [now x|i now now'|d|ctor options]; simpl.
  - rewrite Chunk_update_spec.
    destruct (objects w !! Update.source x); [|by intros [= <- <-]].
    destruct (pendingChunkUpdatesTail w) as [tl|]; [by intros [= <- <-]|].
    symmetry in Htl. by apply last_None in Htl.
  - rewrite Ht. simpl. by intros [= <- <-].
  - by intros [= <- <-].
  - rewrite getChunkSource_spec. destruct (memoize w !! _); by intros [= <- <-].
Qed.

Lemma run_stalled cs w l es w' :
  queue_ok w l → l ≠ [] → timeouts w = [] →
  run cs w = (es, w') →
  timeouts w' = [] ∧ processed es = [] ∧ queue_ok w' (l ++ enqueued es).
Proof.
  revert w l es. induction cs as [|c cs IH]; intros w l es Hok Hne Ht; simpl.
  - intros [= <- <-]. by rewrite app_nil_r.
  - destruct (perform c w) as [e w1] eqn:Hc.
    destruct (run cs w1) as [es1 w2] eqn:Hr. intros [= <- <-].
    destruct (perform_stalled _ _ _ _ _ Hok Hne Ht Hc) as [Ht1 Hp1].
    destruct (perform_queue_ok _ _ _ _ _ _ _ Hok Hc) as (l1 & Hok1 & Hl1).
    rewrite Hp1 in Hl1. simpl in Hl1. subst l1.
    destruct (IH _ _ _ Hok1 ltac:(by destruct l) Ht1 Hr) as (Ht2 & Hp2 & Hok2).
    change (e :: es1) with ([e] ++ es1).
    unfold processed, enqueued in *. rewrite !omap_app, Hp1, Hp2.
    by rewrite (assoc_L (++)).
Qed.

Lemma throwing_tick_stalls i now now' w l err w' :
  queue_ok w l →
  perform (Fire i now now') w = (Ticked (Throw err), w') →
  queue_ok w' l ∧ l ≠ [] ∧ timeouts w' = [].
Proof.
  intros Hok Hc.
  destruct (perform_queue_ok _ _ _ _ _ _ _ Hok Hc) as (l1 & Hok1 & Hl1).
  simpl in Hl1. rewrite app_nil_r in Hl1. subst l1.
  destruct Hok as (_ & _ & _ & _ & _ & Htm & Hlen).
  simpl in Hc. destruct (timeouts w !! i) as [d|] eqn:Hi; [|done].
  assert (timeouts w = [d] ∧ i = 0%nat) as [Ht ->].
  { destruct (timeouts w) as [|d0 [|d1 ts]]; simpl in *; [done| |lia].
    destruct i as [|i]; simpl in Hi; [by simplify_eq|by rewrite lookup_nil in Hi]. }
  split_and!; [done|apply Htm; by rewrite Ht|].
  rewrite Ht in Hc. simpl in Hc.
  destruct (processPendingChunkUpdates _ _ _) as [[t|err'] w1] eqn:Htick; [done|].
  simplify_eq. apply tick_throw_frame in Htick. by rewrite Htick.
Qed.
End Wake_up.

(** X2. A tick that throws stalls the queue for good.  If, on a world
    whose queue is [l], the tick run by a timeout throws, then [l] is not
    empty and stays pending, no timeout is pending, and whatever calls
    follow (records received, timeouts fired, deadline changes, sources
    acquired), no record is ever processed again and no timeout is ever
    scheduled again: the records received afterwards only pile up behind
    [l]. *)
Theorem throwing_tick_stalls_the_queue
    (stableStringify : gmap string Json → string) (getObjectId : nat → Json)
    (w : World) (l : list UpdateRef) (i : nat) (now now' : Z) (err : JsError)
    (w' : World) (cs : list Call) :
  queue_ok w l →
  perform stableStringify getObjectId (Fire i now now') w = (Ticked (Throw err), w') →
  l ≠ [] ∧ pending w' l ∧ timeouts w' = [] ∧
  let '(es, w'') := run stableStringify getObjectId cs w' in
  processed es = [] ∧ timeouts w'' = [] ∧ pending w'' (l ++ enqueued es).
Proof.
  intros Hok Hc.
  destruct (throwing_tick_stalls _ _ _ _ _ _ _ _ _ Hok Hc) as (Hok' & Hne & Ht).
  split_and!; [done|by destruct Hok'|done|].
  destruct (run _ _ cs w') as [es w''] eqn:Hr.
  destruct (run_stalled _ _ _ _ _ _ _ Hok' Hne Ht Hr) as (? & ? & Hok'').
  split_and!; [done..|by destruct Hok''].
Qed.

(** X3. In every world reached from the initial one: at most one timeout
    is pending; a pending timeout finds a record at the head of the queue
    (a tick it runs never reads [null]); an empty queue has its head and
    tail pointers [null]; and as long as no tick has thrown, a timeout is
    pending exactly when the queue is not empty, so no record waits without
    a tick scheduled for it. *)
Theorem timeout_pending_iff_records_queued
    (stableStringify : gmap string Json → string) (getObjectId : nat → Json)
    (capacities : Capacities) (cs : list Call) :
  let '(es, w) := run stableStringify getObjectId cs (initial_world capacities) in
  ∃ l, pending w l ∧
       (length (timeouts w) ≤ 1)%nat ∧
       (timeouts w ≠ [] → pendingChunkUpdates w ≠ None) ∧
       (l = [] → pendingChunkUpdates w = None ∧ pendingChunkUpdatesTail w = None) ∧
       (Forall (λ e, tick_threw e = false) es → (l = [] ↔ timeouts w = [])).
Proof.
  destruct (run _ _ cs _) as [es w] eqn:Hr.
  destruct (run_queue_ok _ _ _ _ _ _ _ (queue_ok_initial capacities) Hr)
    as (l & Hok & _).
  pose proof Hok as (Hl & Htl & _ & _ & _ & Htm & Hlen).
  exists l. split_and!; [done..| | |].
  - intros Ht Hhead. apply (pending_nil_iff _ _ Hl) in Hhead. by apply Htm.
  - intros ->. split; [by apply (pending_nil_iff _ _ Hl)|done].
  - intros Hes. split.
    + intros ->. destruct (timeouts w) eqn:E; [done|]. by destruct Htm.
    + intros Ht. destruct (decide (l = [])) as [|Hne]; [done|].
      exfalso.
      apply (run_wake_up _ _ _ _ _ _ _ (queue_ok_initial capacities)
               ltac:(done) Hr Hes); [|done].
      intros Hhead. by apply (pending_nil_iff _ _ Hl) in Hhead.
Qed.

Lemma example_run_queue_ok cs :
  ∃ l, queue_ok (snd (example_run cs)) l.
Proof.
  unfold example_run.
  set (cs' := GetChunkSource _ _ :: _).
  destruct (run_queue_ok sample_stringify sample_getObjectId cs'
              (initial_world example_capacities) [] _ _
              (queue_ok_initial example_capacities) (surjective_pairing _))
    as (l & Hok & _).
  by exists l.
Qed.

Lemma throwing_tick_stalls_the_queue_witness :
  let w := example_world [Update.mk 2 "c1" (OTHER_STATE 4) true 8] in
  let w' := snd (perform sample_stringify sample_getObjectId (Fire 0 0 0) w) in
  let '(es, w'') := run sample_stringify sample_getObjectId
                      [Recv 0 (Update.mk 2 "c2" GPU_MEMORY true 8); Fire 0 0 0;
                       SetDeadline None; Fire 0 5 5] w' in
  processed es = [] ∧ timeouts w'' = [].
Proof.
  intros w w'.
  destruct (example_run_queue_ok (Recv 0 <$> [Update.mk 2 "c1" (OTHER_STATE 4) true 8]))
    as (l & Hok).
  fold (example_world [Update.mk 2 "c1" (OTHER_STATE 4) true 8]) in Hok. fold w in Hok.
  assert (perform sample_stringify sample_getObjectId (Fire 0 0 0) w =
            (Ticked (Throw (InvalidChunkState (OTHER_STATE 4))), w')) as Hc.
  { vm_compute. reflexivity. }
  pose proof (throwing_tick_stalls_the_queue sample_stringify sample_getObjectId
                w l 0 0 0 _ w'
                [Recv 0 (Update.mk 2 "c2" GPU_MEMORY true 8); Fire 0 0 0;
                 SetDeadline None; Fire 0 5 5] Hok Hc) as (_ & _ & _ & H).
  clear Hc Hok. revert H.
  generalize (run sample_stringify sample_getObjectId
                [Recv 0 (Update.mk 2 "c2" GPU_MEMORY true 8); Fire 0 0 0;
                 SetDeadline None; Fire 0 5 5] w').
  intros [es w''] (H1 & H2 & _). split; [exact H1|exact H2].
Defined.

Lemma timeout_pending_iff_records_queued_witness :
  let '(es, w) := example_run [Recv 0 (Update.mk 2 "c1" GPU_MEMORY true 8);
                               Recv 0 (Update.mk 2 "c1" SYSTEM_MEMORY false 8);
                               Fire 0 0 0] in
  ∃ l, pending w l ∧ (l = [] ↔ timeouts w = []).
Proof.
  pose proof (timeout_pending_iff_records_queued sample_stringify sample_getObjectId
                example_capacities
                (GetChunkSource example_class (example_options 0 1) ::
                 GetChunkSource ChunkSource_class (example_options 1 1) ::
                 [Recv 0 (Update.mk 2 "c1" GPU_MEMORY true 8);
                  Recv 0 (Update.mk 2 "c1" SYSTEM_MEMORY false 8);
                  Fire 0 0 0])) as H.
  unfold example_run.
  set (r := run _ _ _ _) in *.
  assert (Forall (λ e, tick_threw e = false) (fst r)) as HF.
  { vm_compute. repeat constructor. }
  clearbody r. destruct r as [es w]. simpl in HF.
  destruct H as (l & Hl & _ & _ & _ & Hiff).
  exists l. split; [exact Hl|exact (Hiff HF)].
Defined.

(** ** The registry over a run *)



Section Registry_runs.
Variable stableStringify : gmap string Json → string.
Variable getObjectId : nat → Json.

#[local] Abbreviation perform := (perform stableStringify getObjectId).
#[local] Abbreviation run := (run stableStringify getObjectId).
#[local] Abbreviation getChunkSource := (getChunkSource stableStringify getObjectId).



End Registry_runs.



Lemma keyObject_constructorId getObjectId ctor o :
  keyObject getObjectId ctor o !! "constructorId" = Some (getObjectId (objectId ctor)).
Proof. unfold keyObject. by rewrite lookup_insert_eq. Qed.

(** X5. The id of the constructor is part of the key, and it replaces a
    ['constructorId'] that [encodeOptions] may have put there itself.  So
    two constructors whose object ids differ never share an instance,
    whatever their options and however their [encodeOptions] encode them,
    as long as [stableStringify] tells the two key objects apart. *)
Theorem constructors_never_share_instances
    (stableStringify : gmap string Json → string) (getObjectId : nat → Json)
    (ctor1 ctor2 : ChunkSourceConstructor) (o1 o2 : JsObject) (w : World) :
  registry_ok w →
  getObjectId (objectId ctor1) ≠ getObjectId (objectId ctor2) →
  (stableStringify (keyObject getObjectId ctor1 o1) =
     stableStringify (keyObject getObjectId ctor2 o2) →
   keyObject getObjectId ctor1 o1 = keyObject getObjectId ctor2 o2) →
  keyObject getObjectId ctor1 o1 !! "constructorId" =
    Some (getObjectId (objectId ctor1)) ∧
  let '(r1, w1) := getChunkSource stableStringify getObjectId ctor1 o1 w in
  let '(r2, w2) := getChunkSource stableStringify getObjectId ctor2 o2 w1 in
  ∃ id1 id2, r1 = Ok id1 ∧ r2 = Ok id2 ∧ id1 ≠ id2.
Proof.
  intros Hok Hne Hinj. split; [apply keyObject_constructorId|].
  apply getChunkSource_distinct; [done|].
  intros Heq%Hinj. apply Hne.
  apply (f_equal (λ m, m !! "constructorId")) in Heq.
  rewrite !keyObject_constructorId in Heq. by simplify_eq.
Qed.

Lemma constructors_never_share_instances_witness :
  let ctor1 := WithParameters 9 ChunkSource_class in
  let ctor2 := {| objectId := 11;
                  encodeOptions := λ o, {[ "constructorId" := JString "o9";
                                            "parameters" := get_property o "parameters" ]};
                  constructsChunks := false |} in
  let '(r1, w1) := getChunkSource sample_stringify sample_getObjectId ctor1
                     (example_options 0 1) (initial_world example_capacities) in
  let '(r2, w2) := getChunkSource sample_stringify sample_getObjectId ctor2
                     (example_options 0 1) w1 in
  ∃ id1 id2, r1 = Ok id1 ∧ r2 = Ok id2 ∧ id1 ≠ id2.
Proof.
  intros ctor1 ctor2.
  apply (constructors_never_share_instances sample_stringify sample_getObjectId
           ctor1 ctor2 (example_options 0 1) (example_options 0 1)
           (initial_world example_capacities)).
  - apply registry_ok_initial.
  - intros H.
    apply (f_equal (λ j, match j with JString s => s | _ => String.EmptyString end)) in H.
    vm_compute in H. discriminate H.
  - intros H. exfalso. revert H. apply (bool_decide_unpack _). by vm_compute.
Defined.

(** ** The handler and the sources *)



(** ** The deadline *)

Lemma tick_deferred_iff now now' w :
  (processPendingChunkUpdates now now' w).1 = Ok Deferred ↔
  past_deadline (chunkUpdateDeadline w) now = true.
Proof.
  destruct (past_deadline (chunkUpdateDeadline w) now) eqn:Hd.
  { by rewrite tick_deferred. }
  split; [|done].
  destruct (pendingChunkUpdates w) as [u|] eqn:Hu.
  2: { by rewrite tick_empty. }
  rewrite (tick_running _ _ _ u) by done.
  destruct (applied u w) as [[[]|e] w1]; [|done].
  by rewrite advance_spec.
Qed.

(** X7. [scheduleChunkUpdate] and the tick compare the time to the
    deadline with [<] and with [>].  Whenever a tick at time [now] would be
    deferred, [scheduleChunkUpdate] at [now] schedules with the delay
    [chunkUpdateDelay]; whenever [scheduleChunkUpdate] is called with no
    deadline set or before the deadline, it schedules with the delay 0 and a
    tick at that time is not deferred.  At the deadline itself the two
    differ: [scheduleChunkUpdate] schedules with [chunkUpdateDelay],
    although a tick at that time is not deferred. *)
Theorem schedule_and_tick_at_the_deadline (w : World) (now now' : Z) :
  ((processPendingChunkUpdates now now' w).1 = Ok Deferred →
   scheduleChunkUpdate now w =
     (Ok (), set_timeouts (timeouts w ++ [chunkUpdateDelay w]) w)) ∧
  ((chunkUpdateDeadline w = None ∨ ∃ d, chunkUpdateDeadline w = Some d ∧ now < d) →
   scheduleChunkUpdate now w = (Ok (), set_timeouts (timeouts w ++ [0]) w) ∧
   (processPendingChunkUpdates now now' w).1 ≠ Ok Deferred) ∧
  (chunkUpdateDeadline w = Some now →
   scheduleChunkUpdate now w =
     (Ok (), set_timeouts (timeouts w ++ [chunkUpdateDelay w]) w) ∧
   (processPendingChunkUpdates now now' w).1 ≠ Ok Deferred).
Proof.
  rewrite tick_deferred_iff, scheduleChunkUpdate_spec. unfold schedule_delay.
  split_and!.
  - intros (d & -> & Hd)%past_deadline_true.
    destruct (decide (now < d)); [lia|done].
  - intros [->|(d & -> & Hd)]; simpl; [done|].
    rewrite decide_True by done. split; [done|].
    rewrite bool_decide_eq_false_2 by lia. done.
  - intros ->. simpl. rewrite decide_False by lia. split; [done|].
    rewrite bool_decide_eq_false_2 by lia. done.
Qed.

Lemma schedule_and_tick_at_the_deadline_witness :
  let w := set_chunkUpdateDeadline (Some 100)
             (example_world [Update.mk 2 "c1" GPU_MEMORY true 8]) in
  scheduleChunkUpdate 100 w = (Ok (), set_timeouts [0; 30] w) ∧
  (processPendingChunkUpdates 100 100 w).1 ≠ Ok Deferred.
Proof.
  intros w.
  exact (proj2 (proj2 (schedule_and_tick_at_the_deadline w 100 100)) eq_refl).
Defined.

(** X8. Deferred ticks do not pile up.  With the deadline set and one
    timeout pending, any number of ticks, each run by the pending timeout
    at a time past the deadline, returns on the deferred path every time
    and leaves the world where the first one left it: one timeout pending,
    with delay [chunkUpdateDelay], and everything else as it was. *)
Theorem deferred_ticks_do_not_accumulate
    (stableStringify : gmap string Json → string) (getObjectId : nat → Json)
    (w : World) (d t : Z) (times : list (Z * Z)) :
  chunkUpdateDeadline w = Some d →
  timeouts w = [t] →
  times ≠ [] →
  Forall (λ p, p.1 > d) times →
  run stableStringify getObjectId (fire_all times) w =
    (replicate (length times) (Ticked (Ok Deferred)),
     set_timeouts [chunkUpdateDelay w] w).
Proof.
  revert w t. induction times as [|p times IH]; intros w t Hd Ht Hne Hall; [done|].
  apply Forall_cons in Hall as [Hp Hall].
  assert (perform stableStringify getObjectId (Fire 0 p.1 p.2) w =
            (Ticked (Ok Deferred), set_timeouts [chunkUpdateDelay w] w)) as Hstep.
  { simpl. rewrite Ht. simpl.
    by rewrite tick_deferred by (apply past_deadline_true; eauto). }
  change (fire_all (p :: times)) with (Fire 0 p.1 p.2 :: fire_all times).
  change (run stableStringify getObjectId (Fire 0 p.1 p.2 :: fire_all times) w)
    with (let '(e, w') := perform stableStringify getObjectId (Fire 0 p.1 p.2) w in
          let '(es, w'') := run stableStringify getObjectId (fire_all times) w' in
          (e :: es, w'')).
  rewrite Hstep. destruct times as [|p' times]; [done|].
  by rewrite (IH (set_timeouts [chunkUpdateDelay w] w) (chunkUpdateDelay w)).
Qed.

Lemma deferred_ticks_do_not_accumulate_witness :
  let w := set_chunkUpdateDeadline (Some 100)
             (example_world [Update.mk 2 "c1" GPU_MEMORY true 8]) in
  run sample_stringify sample_getObjectId (fire_all [(101, 101); (140, 140); (200, 200)]) w =
    (replicate 3 (Ticked (Ok Deferred)), set_timeouts [30] w).
Proof.
  intros w.
  apply (deferred_ticks_do_not_accumulate sample_stringify sample_getObjectId
           w 100 0 [(101, 101); (140, 140); (200, 200)] eq_refl eq_refl).
  - discriminate.
  - repeat constructor.
Defined.

(** ** Records that follow one another *)

Lemma tick_update_ok now now' w u s c :
  past_deadline (chunkUpdateDeadline w) now = false →
  pendingChunkUpdates w = Some u →
  objects w !! Update.source (fields u) = Some s →
  Update.new (fields u) = false →
  chunks s !! Update.id (fields u) = Some c →
  Update.state (fields u) = SYSTEM_MEMORY ∨ Update.state (fields u) = GPU_MEMORY →
  ∃ w', processPendingChunkUpdates now now' w = (Ok (Processed u), w').
Proof.
  intros Hd Hu Hs Hnew Hc Hst.
  rewrite (tick_running _ _ _ u) by done. unfold applied.
  rewrite Hs, Hnew, Hc.
  destruct (decide (Update.state (fields u) = EXPIRED)) as [Hex|_];
    [destruct Hst; congruence|].
  unfold transition_result. destruct (decide _).
  { rewrite advance_spec. eauto. }
  destruct Hst as [-> | ->]; rewrite advance_spec; eauto.
Qed.

(** X9. Records for the same chunk compose.  After a tick has processed a
    record whose target state is not EXPIRED, a record for the same source
    and id that is not flagged ['new'] and asks for SYSTEM_MEMORY or
    GPU_MEMORY is processed without error by the next tick that is not
    deferred, and leaves the chunk in the state it asks for. *)
Theorem update_after_processing_succeeds (w : World) (now1 now1' : Z)
    (u1 : UpdateRef) (w1 : World) (now2 now2' : Z) (u2 : UpdateRef) :
  processPendingChunkUpdates now1 now1' w = (Ok (Processed u1), w1) →
  Update.state (fields u1) ≠ EXPIRED →
  past_deadline (chunkUpdateDeadline w1) now2 = false →
  pendingChunkUpdates w1 = Some u2 →
  Update.source (fields u2) = Update.source (fields u1) →
  Update.id (fields u2) = Update.id (fields u1) →
  Update.new (fields u2) = false →
  Update.state (fields u2) = SYSTEM_MEMORY ∨ Update.state (fields u2) = GPU_MEMORY →
  ∃ w2 s c,
    processPendingChunkUpdates now2 now2' w1 = (Ok (Processed u2), w2) ∧
    objects w2 !! Update.source (fields u2) = Some s ∧
    chunks s !! Update.id (fields u2) = Some c ∧
    Chunk.state c = Update.state (fields u2).
Proof.
  intros H1 Hex1 Hd2 Hu2 Hsrc Hid Hnew Hst.
  destruct (tick_processed_slot _ _ _ _ _ H1) as (s1 & Hs1 & Hslot).
  destruct (decide _) as [|_]; [done|]. destruct Hslot as (c1 & Hc1 & _).
  rewrite <-Hsrc in Hs1. rewrite <-Hid in Hc1.
  destruct (tick_update_ok now2 now2' _ _ _ _ Hd2 Hu2 Hs1 Hnew Hc1 Hst) as [w2 H2].
  destruct (tick_processed_slot _ _ _ _ _ H2) as (s2 & Hs2 & Hslot2).
  destruct (decide _) as [Hex|_]; [destruct Hst; congruence|].
  destruct Hslot2 as (c2 & Hc2 & Hst2 & _).
  by exists w2, s2, c2.
Qed.


Lemma update_after_processing_succeeds_witness :
  let ua := {| addr := 0; fields := Update.mk 2 "c1" GPU_MEMORY true 8 |} in
  let ub := {| addr := 1; fields := Update.mk 2 "c1" SYSTEM_MEMORY false 8 |} in
  let w := example_world [fields ua; fields ub] in
  let w1 := snd (processPendingChunkUpdates 0 0 w) in
  ∃ w2 s c,
    processPendingChunkUpdates 0 0 w1 = (Ok (Processed ub), w2) ∧
    objects w2 !! 2%nat = Some s ∧ chunks s !! "c1" = Some c ∧
    Chunk.state c = SYSTEM_MEMORY.
Proof.
  intros ua ub w w1.
  assert (processPendingChunkUpdates 0 0 w = (Ok (Processed ua), w1)) as H1
    by (vm_compute; reflexivity).
  assert (past_deadline (chunkUpdateDeadline w1) 0 = false) as Hd
    by (vm_compute; reflexivity).
  assert (pendingChunkUpdates w1 = Some ub) as Hu by (vm_compute; reflexivity).
  exact (update_after_processing_succeeds w 0 0 ua w1 0 0 ub H1
           ltac:(discriminate) Hd Hu eq_refl eq_refl eq_refl (or_introl eq_refl)).
Defined.


(** ** The options handed to the counterpart *)

Lemma counterpart_options_parameters oids o mgr P options :
  counterpart_options oids o mgr (<["parameters" := P]> options) =
    <["chunkManager" := JNumber (Z.of_nat mgr)]>
      (<["parameters" := match oids with
                         | [] => P
                         | _ => get_property o "parameters"
                         end]> options).
Proof.
  revert P. induction oids as [|oid oids IH]; intros P; [done|].
  simpl. unfold WithParameters_initializeCounterpart_options.
  rewrite insert_insert_eq, IH. by destruct oids.
Qed.

Lemma layered_class_encodeOptions oids o :
  encodeOptions (layered_class oids) o =
    match oids with
    | [] => ∅
    | _ => {[ "parameters" := get_property o "parameters" ]}
    end.
Proof.
  induction oids as [|oid oids IH]; [done|].
  simpl. rewrite IH. destruct oids; [done|]. apply insert_insert_eq.
Qed.

(** X11. What the backend counterpart of a source is told agrees with the
    key the source is memoized under.  For a class built from
    [ChunkSource] by one or more applications of [WithParameters], the
    options that reach [SharedObject.initializeCounterpart] are the given
    ones with ['parameters'] set to the [parameters] of the constructor's
    options and ['chunkManager'] to the rpc id of the chunk manager;
    [encodeOptions] encodes exactly that ['parameters'] value, however many
    layers there are.  So two options objects that give the same key object
    give the same options for the counterpart. *)
Theorem counterpart_options_agree_with_key (getObjectId : nat → Json)
    (oids : list nat) (o1 o2 : JsObject) (mgr : nat) (options : gmap string Json) :
  oids ≠ [] →
  counterpart_options oids o1 mgr options =
    <["chunkManager" := JNumber (Z.of_nat mgr)]>
      (<["parameters" := get_property o1 "parameters"]> options) ∧
  encodeOptions (layered_class oids) o1 =
    {[ "parameters" := get_property o1 "parameters" ]} ∧
  (keyObject getObjectId (layered_class oids) o1 =
     keyObject getObjectId (layered_class oids) o2 →
   counterpart_options oids o1 mgr options = counterpart_options oids o2 mgr options).
Proof.
  intros Hne. destruct oids as [|oid oids]; [done|].
  assert (∀ o, counterpart_options (oid :: oids) o mgr options =
               <["chunkManager" := JNumber (Z.of_nat mgr)]>
                 (<["parameters" := get_property o "parameters"]> options)) as Hc.
  { intros o. simpl. unfold WithParameters_initializeCounterpart_options.
    rewrite counterpart_options_parameters. by destruct oids. }
  split_and!.
  - apply Hc.
  - by rewrite layered_class_encodeOptions.
  - intros Hkey. rewrite !Hc.
    apply (f_equal (λ m, m !! "parameters")) in Hkey.
    change (layered_class (oid :: oids)) with (WithParameters oid (layered_class oids))
      in Hkey.
    rewrite !keyObject_parameters in Hkey. injection Hkey as Hkey. by rewrite Hkey.
Qed.

Lemma counterpart_options_agree_with_key_witness :
  counterpart_options [9%nat; 8%nat] (example_options 0 1) 1 ∅ =
    {[ "chunkManager" := JNumber 1;
       "parameters" := JObject {[ "a" := JNumber 1 ]} ]}.
Proof.
  rewrite (proj1 (counterpart_options_agree_with_key sample_getObjectId
                    [9%nat; 8%nat] (example_options 0 1) (example_options 0 1) 1 ∅
                    ltac:(discriminate))).
  reflexivity.
Defined.

(** ** Sources and keys *)

Section Registry_cover.
Variable stableStringify : gmap string Json → string.
Variable getObjectId : nat → Json.

#[local] Abbreviation perform := (perform stableStringify getObjectId).
#[local] Abbreviation run := (run stableStringify getObjectId).



End Registry_cover.


(** ** Draining the queue *)

Lemma tick_deadline_frame now now' w r w' :
  processPendingChunkUpdates now now' w = (r, w') →
  chunkUpdateDeadline w' = chunkUpdateDeadline w.
Proof.
  destruct (past_deadline (chunkUpdateDeadline w) now) eqn:Hd.
  { rewrite tick_deferred by done. by intros [= <- <-]. }
  destruct (pendingChunkUpdates w) as [u|] eqn:Hu.
  2: { rewrite tick_empty by done. by intros [= <- <-]. }
  rewrite (tick_running _ _ _ u) by done.
  destruct (applied u w) as [[[]|e] w1] eqn:Ha.
  - apply applied_frame in Ha. rewrite advance_spec. intros [= <- <-].
    rewrite Ha. by destruct (nextUpdate _ !! _).
  - apply applied_frame in Ha. intros [= <- <-]. by rewrite Ha.
Qed.

Section Drain.
Variable stableStringify : gmap string Json → string.
Variable getObjectId : nat → Json.

#[local] Abbreviation perform := (perform stableStringify getObjectId).
#[local] Abbreviation run := (run stableStringify getObjectId).

Lemma perform_fire_running w u l now now' e w1 :
  queue_ok w (u :: l) →
  timeouts w ≠ [] →
  past_deadline (chunkUpdateDeadline w) now = false →
  perform (Fire 0 now now') w = (e, w1) →
  chunkUpdateDeadline w1 = chunkUpdateDeadline w ∧
  ((∃ err, e = Ticked (Throw err)) ∨ e = Ticked (Ok (Processed u))).
Proof.
  intros (Hl & _) Ht Hd. simpl.
  destruct (timeouts w) as [|d ts] eqn:Hts; [done|]. simpl.
  destruct (processPendingChunkUpdates _ _ _) as [r w'] eqn:Htick.
  intros [= <- <-]. split.
  { by rewrite (tick_deadline_frame _ _ _ _ _ Htick). }
  destruct r as [[|u0]|err]; [|right|by eauto].
  - exfalso. apply (f_equal fst) in Htick. simpl in Htick.
    apply tick_deferred_iff in Htick. simpl in Htick. congruence.
  - apply tick_processed_inv in Htick as (_ & Hu & _). simpl in Hu.
    destruct Hl as [Hhead _]. congruence.
Qed.

Lemma run_drains times w l es w' :
  queue_ok w l →
  (l ≠ [] → timeouts w ≠ []) →
  length times = length l →
  Forall (λ p, past_deadline (chunkUpdateDeadline w) p.1 = false) times →
  run (fire_all times) w = (es, w') →
  Forall (λ e, tick_threw e = false) es →
  processed es = l ∧ queue_ok w' [] ∧ timeouts w' = [].
Proof.
  revert w l es. induction times as [|p times IH]; intros w l es Hok Hwake Hlen Hpast.
  - destruct l; [|done]. simpl. intros [= <- <-] _. split_and!; [done..|].
    destruct Hok as (_ & _ & _ & _ & _ & Htm & _).
    destruct (timeouts w); [done|]. by destruct Htm.
  - destruct l as [|u l]; [done|]. simpl in Hlen.
    apply Forall_cons in Hpast as [Hp Hpast].
    change (fire_all (p :: times)) with (Fire 0 p.1 p.2 :: fire_all times).
    change (run (Fire 0 p.1 p.2 :: fire_all times) w)
      with (let '(e, w') := perform (Fire 0 p.1 p.2) w in
            let '(es, w'') := run (fire_all times) w' in
            (e :: es, w'')).
    destruct (perform (Fire 0 p.1 p.2) w) as [e w1] eqn:Hc.
    destruct (run (fire_all times) w1) as [es1 w2] eqn:Hr.
    intros [= <- <-] [He Hes]%Forall_cons.
    destruct (perform_fire_running _ _ _ _ _ _ _ Hok (Hwake ltac:(done)) Hp Hc)
      as [Hdl [[err ->]| ->]]; [done|].
    destruct (perform_queue_ok _ _ _ _ _ _ _ Hok Hc) as (l1 & Hok1 & Hl1).
    simpl in Hl1. rewrite app_nil_r in Hl1. injection Hl1 as <-.
    assert (l ≠ [] → timeouts w1 ≠ []) as Hwake1.
    { intros Hne.
      apply (perform_wake_up stableStringify getObjectId _ _ _ _ _ Hok
               ltac:(intros _; by apply Hwake) Hc He).
      destruct Hok1 as (Hl & _). intros Hhead.
      by apply (pending_nil_iff _ _ Hl) in Hhead. }
    rewrite <-Hdl in Hpast.
    destruct (IH w1 l es1 Hok1 Hwake1 ltac:(lia) Hpast Hr Hes) as (Hp1 & Hq & Ht).
    split_and!; [|done..]. simpl. by rewrite Hp1.
Qed.
End Drain.

(** X13. The queue drains.  On a world whose queue is [l] and has its
    timeout pending, let the pending timeout fire as many times as there
    are records, each time not past the deadline.  If none of these ticks
    throws, they process exactly the records of [l], in order, and leave
    the manager idle: head and tail [null], and no timeout pending. *)
Theorem queue_drains_in_order
    (stableStringify : gmap string Json → string) (getObjectId : nat → Json)
    (w : World) (l : list UpdateRef) (times : list (Z * Z)) :
  queue_ok w l →
  (l ≠ [] → timeouts w ≠ []) →
  length times = length l →
  Forall (λ p, past_deadline (chunkUpdateDeadline w) p.1 = false) times →
  let '(es, w') := run stableStringify getObjectId (fire_all times) w in
  Forall (λ e, tick_threw e = false) es →
  processed es = l ∧
  pendingChunkUpdates w' = None ∧ pendingChunkUpdatesTail w' = None ∧
  timeouts w' = [].
Proof.
  intros Hok Hwake Hlen Hpast.
  destruct (run _ _ (fire_all times) w) as [es w'] eqn:Hr. intros Hes.
  destruct (run_drains _ _ _ _ _ _ _ Hok Hwake Hlen Hpast Hr Hes)
    as (Hp & (Hl & Htl & _) & Ht).
  by split_and!.
Qed.

Lemma queue_drains_in_order_witness :
  let ua := {| addr := 0; fields := Update.mk 2 "c1" GPU_MEMORY true 8 |} in
  let ub := {| addr := 1; fields := Update.mk 2 "c1" SYSTEM_MEMORY false 8 |} in
  let uc := {| addr := 2; fields := Update.mk 2 "c1" EXPIRED false 8 |} in
  let w := example_world [fields ua; fields ub; fields uc] in
  let '(es, w') := run sample_stringify sample_getObjectId
                     (fire_all [(0, 0); (1, 1); (2, 2)]) w in
  processed es = [ua; ub; uc] ∧ pendingChunkUpdates w' = None ∧ timeouts w' = [].
Proof.
  intros ua ub uc w.
  destruct (example_run_queue_ok (Recv 0 <$> [fields ua; fields ub; fields uc]))
    as (l & Hok).
  fold (example_world [fields ua; fields ub; fields uc]) in Hok. fold w in Hok.
  assert (pending w [ua; ub; uc]) as Hl by (vm_compute; repeat split).
  assert (l = [ua; ub; uc]) as ->.
  { destruct Hok as (Hl' & _). exact (linked_functional _ _ _ _ Hl' Hl). }
  assert (timeouts w ≠ []) as Hto by (vm_compute; discriminate).
  assert (Forall (λ p : Z * Z, past_deadline (chunkUpdateDeadline w) p.1 = false)
            [(0, 0); (1, 1); (2, 2)]) as Hpast.
  { repeat (constructor; [vm_compute; reflexivity|]). constructor. }
  pose proof (queue_drains_in_order sample_stringify sample_getObjectId w
                [ua; ub; uc] [(0, 0); (1, 1); (2, 2)] Hok (λ _, Hto) eq_refl Hpast) as H.
  clear Hok Hl Hto Hpast.
  set (r := run _ _ _ _) in *.
  assert (Forall (λ e, tick_threw e = false) (fst r)) as HF.
  { vm_compute. repeat constructor. }
  clearbody r. destruct r as [es w']. simpl in HF.
  destruct (H HF) as (H1 & H2 & _ & H3).
  split; [exact H1|]. split; [exact H2|exact H3].
Defined.
